(** * linked_lists: a singly linked list of Ruby values (ext/linked_lists/linked_lists.c)

    The C extension keeps a chain of malloc'ed nodes behind a Ruby typed-data
    object.  The embedding below keeps the C view: a heap of malloc blocks
    addressed by machine words, a table of the Ruby objects that wrap a list
    struct, and the log of the calls made to [rb_gc_mark].  Every C function is
    a computation in a small state-and-error monad over that memory; the three
    [while] loops take fuel. *)

From stdpp Require Import gmap strings list fin_maps pretty.
From Stdlib Require Import ZArith.

Local Open Scope Z_scope.

(** ** Machine words *)

(** [VALUE] (Ruby's [uintptr_t] handle) and C pointers are machine words.  The
    code never does arithmetic on them: it stores, copies and compares them. *)
Abbreviation VALUE := Z (only parsing).
Abbreviation ptr := Z (only parsing).

Definition NULL : ptr := 0.

(** [long] on an LP64 platform: [i++] in [rb_linked_list_inspect] is the only
    arithmetic of the file; it is written with its two's complement wrap. *)
Definition LONG_MAX : Z := 2 ^ 63 - 1.

Definition wrap_long (z : Z) : Z := (z + 2 ^ 63) mod 2 ^ 64 - 2 ^ 63.

(** A struct field: [None] while indeterminate (after [malloc], before the
    first store), [Some w] once a word was stored. *)
Abbreviation cell := (option Z) (only parsing).

(** ** The two structs *)

Record linkedListNodeType : Type := mkNode {
  next : cell;
  value : cell
}.

Record linkedListType : Type := mkList {
  head : cell
}.

(** What a live malloc block holds. *)
Inductive block : Type :=
| ListBlock (l : linkedListType)
| NodeBlock (n : linkedListNodeType).

(** The argument of [malloc]: [sizeof(linkedListType)] or
    [sizeof(linkedListNodeType)]. *)
Inductive ctype : Type := TList | TNode.

Definition indeterminate (t : ctype) : block :=
  match t with
  | TList => ListBlock (mkList None)
  | TNode => NodeBlock (mkNode None None)
  end.

(** ** Memory *)

Record mem : Type := Mem {
  heap : gmap Z block;        (* live malloc blocks, by address *)
  objs : gmap Z (Z * Z);      (* typed-data objects: object |-> (class, data pointer) *)
  gc_marks : list Z           (* arguments of the rb_gc_mark calls, oldest first *)
}.

Definition set_heap (h : gmap Z block) (m : mem) : mem :=
  Mem h (objs m) (gc_marks m).

Definition set_objs (o : gmap Z (Z * Z)) (m : mem) : mem :=
  Mem (heap m) o (gc_marks m).

Definition set_gc_marks (l : list Z) (m : mem) : mem :=
  Mem (heap m) (objs m) l.

Definition empty_mem : mem := Mem ∅ ∅ [].

(** ** Outcomes and the monad *)

Inductive outcome (A : Type) : Type :=
| Ok (a : A) (m : mem)   (* normal return *)
| Fault                  (* undefined behaviour: NULL, dangling or ill-typed
                            access, read of an indeterminate field, bad free *)
| TypeError              (* raised by TypedData_Get_Struct *)
| OutOfFuel.             (* a loop did not finish within its fuel *)

Arguments Ok {A} a m.
Arguments Fault {A}.
Arguments TypeError {A}.
Arguments OutOfFuel {A}.

Definition M (A : Type) : Type := mem → outcome A.

#[global] Instance M_ret : MRet M := λ A a m, Ok a m.

#[global] Instance M_bind : MBind M := λ A B f c m,
  match c m with
  | Ok a m' => f a m'
  | Fault => Fault
  | TypeError => TypeError
  | OutOfFuel => OutOfFuel
  end.

Definition out_of_fuel {A} : M A := λ _, OutOfFuel.

(** ** C primitives *)

(** [malloc]: a block at an address that is not NULL and not live, with
    indeterminate contents.  Allocation failure is not modelled (the code does
    not test for it). *)
Definition fresh_addr (h : gmap Z block) : ptr :=
  fresh ({[NULL]} ∪ dom h).

Definition malloc (t : ctype) : M ptr := λ m,
  let p := fresh_addr (heap m) in
  Ok p (set_heap (<[p := indeterminate t]> (heap m)) m).

(** [free]: a no-op on NULL, releases a live block, undefined otherwise. *)
Definition free (p : ptr) : M unit := λ m,
  if decide (p = NULL) then Ok tt m
  else match heap m !! p with
       | Some _ => Ok tt (set_heap (delete p (heap m)) m)
       | None => Fault
       end.

(** [l->head] *)
Definition load_head (l : ptr) : M ptr := λ m,
  match heap m !! l with
  | Some (ListBlock (mkList (Some h))) => Ok h m
  | _ => Fault
  end.

(** [l->head = h] *)
Definition store_head (l : ptr) (h : ptr) : M unit := λ m,
  match heap m !! l with
  | Some (ListBlock _) => Ok tt (set_heap (<[l := ListBlock (mkList (Some h))]> (heap m)) m)
  | _ => Fault
  end.

(** [n->next] *)
Definition load_next (n : ptr) : M ptr := λ m,
  match heap m !! n with
  | Some (NodeBlock (mkNode (Some q) _)) => Ok q m
  | _ => Fault
  end.

(** [n->value] *)
Definition load_value (n : ptr) : M VALUE := λ m,
  match heap m !! n with
  | Some (NodeBlock (mkNode _ (Some v))) => Ok v m
  | _ => Fault
  end.

(** [n->next = q] *)
Definition store_next (n : ptr) (q : ptr) : M unit := λ m,
  match heap m !! n with
  | Some (NodeBlock nd) =>
      Ok tt (set_heap (<[n := NodeBlock (mkNode (Some q) (value nd))]> (heap m)) m)
  | _ => Fault
  end.

(** [n->value = v] *)
Definition store_value (n : ptr) (v : VALUE) : M unit := λ m,
  match heap m !! n with
  | Some (NodeBlock nd) =>
      Ok tt (set_heap (<[n := NodeBlock (mkNode (next nd) (Some v))]> (heap m)) m)
  | _ => Fault
  end.

(** ** Ruby primitives *)

(** [TypedData_Wrap_Struct(klass, &linked_list_data_type, p)]: a new object of
    class [klass] whose data pointer is [p]. *)
Definition fresh_obj (o : gmap Z (Z * Z)) : VALUE :=
  fresh ({[0]} ∪ dom o).

Definition TypedData_Wrap_Struct (klass : VALUE) (p : ptr) : M VALUE := λ m,
  let obj := fresh_obj (objs m) in
  Ok obj (set_objs (<[obj := (klass, p)]> (objs m)) m).

(** [TypedData_Get_Struct(self, linkedListType, &linked_list_data_type, p)]:
    the data pointer of [self]; a [TypeError] when [self] is no such object. *)
Definition TypedData_Get_Struct (self : VALUE) : M ptr := λ m,
  match objs m !! self with
  | Some (_, p) => Ok p m
  | None => TypeError
  end.

(** [rb_class_of(self)] for a typed-data object. *)
Definition rb_class_of (self : VALUE) : M VALUE := λ m,
  match objs m !! self with
  | Some (klass, _) => Ok klass m
  | None => Fault
  end.

(** [rb_gc_mark(v)]: the collector is told that [v] is alive. *)
Definition rb_gc_mark (v : VALUE) : M unit := λ m,
  Ok tt (set_gc_marks (gc_marks m ++ [v]) m).

(** ** The functions of linked_lists.c *)

(** The loop of [linked_list_mark]:
    [while(node != NULL) { if(node->value) rb_gc_mark(node->value); node = node->next; }] *)
Fixpoint linked_list_mark_loop (fuel : nat) (node : ptr) : M unit :=
  match fuel with
  | O => out_of_fuel
  | S fuel' =>
      if decide (node = NULL) then mret tt
      else
        v ← load_value node;
        (if decide (v = 0) then mret tt else rb_gc_mark v);;
        nx ← load_next node;
        linked_list_mark_loop fuel' nx
  end.

Definition linked_list_mark (fuel : nat) (p : ptr) : M unit :=
  node ← load_head p;
  linked_list_mark_loop fuel node.

Definition linked_list_free (p : ptr) : M unit :=
  free p.

Definition rb_linked_list_allocate (klass : VALUE) : M VALUE :=
  linked_list ← malloc TList;
  obj ← TypedData_Wrap_Struct klass linked_list;
  store_head linked_list NULL;;
  mret obj.

Definition new_c_node : M ptr :=
  node ← malloc TNode;
  store_next node NULL;;
  mret node.

Definition new_c_node_value (v : VALUE) : M ptr :=
  node ← new_c_node;
  store_value node v;;
  mret node.

(** The loop of [rb_linked_list_append]:
    [while(node->next != NULL) { node = node->next; }], returning the last node. *)
Fixpoint rb_linked_list_append_loop (fuel : nat) (node : ptr) : M ptr :=
  match fuel with
  | O => out_of_fuel
  | S fuel' =>
      nx ← load_next node;
      if decide (nx = NULL) then mret node
      else rb_linked_list_append_loop fuel' nx
  end.

Definition rb_linked_list_append (fuel : nat) (self : VALUE) (v : VALUE) : M VALUE :=
  linked_list ← TypedData_Get_Struct self;
  node ← load_head linked_list;
  if decide (node = NULL) then
    new ← new_c_node_value v;
    store_head linked_list new;;
    mret self
  else
    last ← rb_linked_list_append_loop fuel node;
    new ← new_c_node_value v;
    store_next last new;;
    mret self.

Definition rb_linked_list_prepend (self : VALUE) (v : VALUE) : M VALUE :=
  linked_list ← TypedData_Get_Struct self;
  new_node ← new_c_node_value v;
  h ← load_head linked_list;
  store_next new_node h;;
  store_head linked_list new_node;;
  mret self.

(** ** Ruby's constants and a concrete host

    The constants of ruby/internal/special_consts.h: [Qfalse] is the zero
    word in every build; [Qnil] is 0x04 (0x08 in the 64-bit builds before
    Ruby 3.2), in no build zero; the fixnum [n] is the odd word [2n + 1].
    They serve in the concrete runs at the end of the file, with the
    rendering of fixnums in decimal and a class named "ClassName". *)
Definition RUBY_Qfalse : VALUE := 0.

Definition RUBY_Qnil : VALUE := 4.

Definition INT2FIX (n : Z) : VALUE := 2 * n + 1.

Definition fixnum_inspect (v : VALUE) : string :=
  if Z.odd v then pretty (Z.shiftr v 1) else "?".

Definition ClassName_name (klass : VALUE) : string := "ClassName".

(** The class object of the examples. *)
Definition sample_klass : VALUE := 1000.

(** A new list: what [rb_linked_list_allocate sample_klass] leaves on the
    empty memory. *)
Definition new_list_mem : mem :=
  Mem (<[1 := ListBlock (mkList (Some NULL))]> ∅)
      (<[1 := (sample_klass, 1)]> ∅)
      [].

(** The list [1, 2, 3]: what three appends leave after that. *)
Definition sample_mem : mem :=
  Mem (<[1 := ListBlock (mkList (Some 2))]>
         (<[2 := NodeBlock (mkNode (Some 3) (Some (INT2FIX 1)))]>
            (<[3 := NodeBlock (mkNode (Some 4) (Some (INT2FIX 2)))]>
               (<[4 := NodeBlock (mkNode (Some NULL) (Some (INT2FIX 3)))]> ∅))))
      (<[1 := (sample_klass, 1)]> ∅)
      [].

(** The list [1, false, nil]. *)
Definition mixed_mem : mem :=
  Mem (<[1 := ListBlock (mkList (Some 2))]>
         (<[2 := NodeBlock (mkNode (Some 3) (Some (INT2FIX 1)))]>
            (<[3 := NodeBlock (mkNode (Some 4) (Some RUBY_Qfalse))]>
               (<[4 := NodeBlock (mkNode (Some NULL) (Some RUBY_Qnil))]> ∅))))
      (<[1 := (sample_klass, 1)]> ∅)
      [].

(** ** Two lists in one memory, for the concrete runs *)

(** What the code leaves on the empty memory after
    [a = LinkedList.new; a.append(1); b = LinkedList.new; b.append(2); a.append(3)]. *)
Definition two_lists_mem : mem :=
  Mem (<[1 := ListBlock (mkList (Some 2))]>
         (<[2 := NodeBlock (mkNode (Some 5) (Some (INT2FIX 1)))]>
            (<[3 := ListBlock (mkList (Some 4))]>
               (<[4 := NodeBlock (mkNode (Some NULL) (Some (INT2FIX 2)))]>
                  (<[5 := NodeBlock (mkNode (Some NULL) (Some (INT2FIX 3)))]> ∅)))))
      (<[1 := (sample_klass, 1)]> (<[2 := (sample_klass, 3)]> ∅))
      [].

(** The two lists of [two_lists_mem], by handle. *)
Definition two_lists : gmap Z (Z * Z * list (Z * Z)) :=
  <[1 := (sample_klass, 1, [(2, INT2FIX 1); (5, INT2FIX 3)])]>
    (<[2 := (sample_klass, 3, [(4, INT2FIX 2)])]> ∅).

(** A list that holds itself: what [l = LinkedList.new; l.append(l)] leaves
    on the empty memory. *)
Definition self_mem : mem :=
  Mem (<[1 := ListBlock (mkList (Some 2))]>
         (<[2 := NodeBlock (mkNode (Some NULL) (Some 1))]> ∅))
      (<[1 := (sample_klass, 1)]> ∅)
      [].

(** The handle of an object of the host that is no list and no fixnum. *)
Definition sample_elem : VALUE := 2000.

(** The list [elem, 2]: what [l = LinkedList.new; l.append(elem); l.append(2)]
    leaves on the empty memory. *)
Definition elem_mem : mem :=
  Mem (<[1 := ListBlock (mkList (Some 2))]>
         (<[2 := NodeBlock (mkNode (Some 3) (Some sample_elem))]>
            (<[3 := NodeBlock (mkNode (Some NULL) (Some (INT2FIX 2)))]> ∅)))
      (<[1 := (sample_klass, 1)]> ∅)
      [].

(** Proves [is_list] on a concrete memory by following the chain. *)
Ltac solve_is_list :=
  split; [reflexivity|];
  eexists; split; [reflexivity|];
  cbn; repeat first [reflexivity | discriminate | split | eexists].

(** ** What the host provides

    [Qnil] is a constant of Ruby's headers, [rb_class_name] is Ruby's name of
    a class, and [sizeof_linkedListType] is the compiler's
    [sizeof(linkedListType)].  Ruby's [rb_inspect] is not one of them: it
    calls the [inspect] method of the value, which is code of the host, so
    the functions that call it take it as a computation (see
    [rb_linked_list_inspect_loop]). *)
Section Host.

Local Set Default Proof Using "Type".

Variable Qnil : VALUE.
Variable rb_class_name : VALUE → string.
Variable sizeof_linkedListType : Z.

Definition linked_list_memsize (p : ptr) : M Z :=
  mret sizeof_linkedListType.

Definition rb_linked_list_shift (self : VALUE) : M VALUE :=
  linked_list ← TypedData_Get_Struct self;
  h ← load_head linked_list;
  if decide (h = NULL) then mret Qnil
  else
    h1 ← load_head linked_list;
    new_head ← load_next h1;
    h2 ← load_head linked_list;
    removed_value ← load_value h2;
    h3 ← load_head linked_list;
    free h3;;
    store_head linked_list new_head;;
    mret removed_value.

(** The loop of [rb_linked_list_inspect]; [str] is the string buffer and [i]
    the [long] counter.

    [rb_inspect] is Ruby's [rb_inspect]: the call [rb_inspect(node->value)]
    runs the [inspect] method of the stored value before [node->next] is
    read.  That method is any code of the host: it may change the memory
    (free or relink nodes of this very list), raise, not return, or call
    back into [rb_linked_list_inspect].  So it is a computation on the
    memory, run where the source calls it. *)
Fixpoint rb_linked_list_inspect_loop (rb_inspect : VALUE → M string)
  (fuel : nat) (node : ptr) (i : Z) (str : string) : M string :=
  match fuel with
  | O => out_of_fuel
  | S fuel' =>
      if decide (node = NULL) then mret str
      else
        v ← load_value node;
        s ← rb_inspect v;
        let str1 := if decide (0 < i) then str +:+ ", " else str in
        let str2 := str1 +:+ s in
        nx ← load_next node;
        rb_linked_list_inspect_loop rb_inspect fuel' nx (wrap_long (i + 1)) str2
  end.

Definition rb_linked_list_inspect (rb_inspect : VALUE → M string)
  (fuel : nat) (self : VALUE) : M string :=
  linked_list ← TypedData_Get_Struct self;
  node ← load_head linked_list;
  klass ← rb_class_of self;
  let str := ("#<" +:+ rb_class_name klass) +:+ " {" in
  str' ← rb_linked_list_inspect_loop rb_inspect fuel node 0 str;
  mret (str' +:+ "}>").

(** ** Three hosts for [rb_inspect] *)


(** Ruby's dispatch on the values of the examples: [Init_linked_lists]
    registers [rb_linked_list_inspect] as the [inspect] method of the lists,
    so the rendering of a list handle is a call of it, one level deeper;
    every other handle renders as a fixnum.  [depth] bounds the nesting of
    the calls as [fuel] bounds the loops. *)
Fixpoint ruby_inspect (fuel depth : nat) (v : VALUE) : M string :=
  match depth with
  | O => out_of_fuel
  | S depth' => λ m,
      match objs m !! v with
      | Some _ => rb_linked_list_inspect (ruby_inspect fuel depth') fuel v m
      | None => Ok (fixnum_inspect v) m
      end
  end.

(** A host with one object, [elem], whose [inspect] method shifts the list
    [list] and returns ["elem"]; every other handle renders as a fixnum. *)
Definition shifting_inspect (list elem : VALUE) : VALUE → M string :=
  λ v, if decide (v = elem)
       then rb_linked_list_shift list;; mret "elem"
       else mret (fixnum_inspect v).

(** [renders_at rb_inspect m render vs]: at the memory [m] the host renders
    each value [v] of [vs] as [render v] and leaves the memory as it is. *)
Definition renders_at (rb_inspect : VALUE → M string) (m : mem)
  (render : VALUE → string) (vs : list VALUE) : Prop :=
  ∀ v, v ∈ vs → rb_inspect v m = Ok (render v) m.

(** ** Sequences of calls *)

(** [list.append(v1); ...; list.append(vn)] *)
Fixpoint appends (fuel : nat) (self : VALUE) (vs : list VALUE) : M unit :=
  match vs with
  | [] => mret tt
  | v :: vs' => rb_linked_list_append fuel self v;; appends fuel self vs'
  end.

(** [list.prepend(v1); ...; list.prepend(vn)] *)
Fixpoint prepends (self : VALUE) (vs : list VALUE) : M unit :=
  match vs with
  | [] => mret tt
  | v :: vs' => rb_linked_list_prepend self v;; prepends self vs'
  end.

(** [n] calls of [list.shift], with the values they return, first call first. *)
Fixpoint shifts (self : VALUE) (n : nat) : M (list VALUE) :=
  match n with
  | O => mret []
  | S n' =>
      v ← rb_linked_list_shift self;
      vs ← shifts self n';
      mret (v :: vs)
  end.

(** A call of one of the three mutators. *)
Inductive op : Type :=
| OpAppend (v : VALUE)
| OpPrepend (v : VALUE)
| OpShift.

Definition run_op (fuel : nat) (self : VALUE) (o : op) : M unit :=
  match o with
  | OpAppend v => rb_linked_list_append fuel self v;; mret tt
  | OpPrepend v => rb_linked_list_prepend self v;; mret tt
  | OpShift => rb_linked_list_shift self;; mret tt
  end.

Fixpoint run_ops (fuel : nat) (self : VALUE) (os : list op) : M unit :=
  match os with
  | [] => mret tt
  | o :: os' => run_op fuel self o;; run_ops fuel self os'
  end.

(** The values logically stored after a call, and after a sequence of calls
    on a new list: inserted and not yet shifted out. *)
Definition stored_step (l : list VALUE) (o : op) : list VALUE :=
  match o with
  | OpAppend v => l ++ [v]
  | OpPrepend v => v :: l
  | OpShift => tail l
  end.

Definition stored (os : list op) : list VALUE :=
  fold_left stored_step os [].

(** The same as a count: +1 for an insertion, -1 for a shift that finds a
    value. *)
Definition stored_count_step (n : nat) (o : op) : nat :=
  match o with
  | OpAppend _ | OpPrepend _ => S n
  | OpShift => Nat.pred n
  end.

Definition stored_count (os : list op) : nat :=
  fold_left stored_count_step os 0%nat.

(** ** The shape of a well-formed list in memory *)

(** [chain h p ns]: following [next] from [p] in the heap [h] visits the node
    blocks at the addresses of [ns], holding the values of [ns], and then
    reaches NULL. *)
Fixpoint chain (h : gmap Z block) (p : ptr) (ns : list (Z * Z)) : Prop :=
  match ns with
  | [] => p = NULL
  | (a, v) :: ns' =>
      p = a ∧ a ≠ NULL ∧
      ∃ q, h !! a = Some (NodeBlock (mkNode (Some q) (Some v))) ∧ chain h q ns'
  end.

(** [is_list m self klass lp ns]: [self] is an object of class [klass] that
    wraps the list struct at [lp], whose head starts the chain [ns]. *)
Definition is_list (m : mem) (self klass : VALUE) (lp : ptr) (ns : list (Z * Z)) : Prop :=
  objs m !! self = Some (klass, lp) ∧
  ∃ hd, heap m !! lp = Some (ListBlock (mkList (Some hd))) ∧ chain (heap m) hd ns.

(** One step along [next], and the addresses reachable from a pointer. *)
Definition next_of (h : gmap Z block) (p q : ptr) : Prop :=
  p ≠ NULL ∧ ∃ v, h !! p = Some (NodeBlock (mkNode (Some q) v)).

Definition reachable (h : gmap Z block) (p q : ptr) : Prop :=
  rtc (next_of h) p q.

(** ** Renderings *)

(** The rendering the specification describes for a list of class [klass]
    holding [vs], when [render] gives the rendering of each value: the
    class name, then the values' renderings between braces, separated by
    commas. *)
Definition inspect_spec (render : VALUE → string) (klass : VALUE)
  (vs : list VALUE) : string :=
  "#<" +:+ rb_class_name klass +:+ " {" +:+
  String.concat ", " (map render vs) +:+ "}>".

(** What the loop of [rb_linked_list_inspect] adds to the buffer for the
    renderings [ss], when [first] tells that nothing was added yet. *)
Fixpoint items (first : bool) (ss : list string) : string :=
  match ss with
  | [] => ""
  | s :: ss' => (if first then "" else ", ") +:+ s +:+ items false ss'
  end.

(** What the specification has [mark] report for a chain holding [vs], when
    [none] is the sentinel: every value but the sentinel, in order. *)
Definition mark_spec (none : VALUE) (vs : list VALUE) : list VALUE :=
  filter (λ v, v ≠ none) vs.

(** ** The blocks of a list and the rest of the heap *)

(** The addresses a list owns: its struct and its nodes. *)
Definition blocks (lp : ptr) (ns : list (Z * Z)) : list Z :=
  lp :: ns.*1.

(** The heap without the blocks of a list. *)
Definition frame (h : gmap Z block) (lp : ptr) (ns : list (Z * Z)) : gmap Z block :=
  foldr delete h (blocks lp ns).

Arguments frame : simpl never.

(** The address of the first node of a chain, NULL when there is none. *)
Definition head_addr (ns : list (Z * Z)) : ptr :=
  match ns with
  | [] => NULL
  | (a, _) :: _ => a
  end.

(** Several lists in one memory: [L] maps each handle to its class, its
    struct and its chain; every entry is a well-formed list and no two
    entries share a block. *)
Definition lists_ok (m : mem) (L : gmap Z (Z * Z * list (Z * Z))) : Prop :=
  (∀ self klass lp ns,
     L !! self = Some (klass, lp, ns) → is_list m self klass lp ns) ∧
  (∀ s1 s2 k1 k2 lp1 lp2 ns1 ns2 a,
     s1 ≠ s2 →
     L !! s1 = Some (k1, lp1, ns1) → L !! s2 = Some (k2, lp2, ns2) →
     a ∈ blocks lp1 ns1 → a ∉ blocks lp2 ns2).

(** ** Two sequences of calls, for the concrete runs *)

(** A sequence of calls that leaves a list empty, and one that does not. *)
Definition drain_ops : list op :=
  [OpAppend (INT2FIX 1); OpPrepend (INT2FIX 2); OpShift; OpAppend (INT2FIX 3);
   OpShift; OpShift; OpShift].

Definition mixed_ops : list op :=
  [OpAppend (INT2FIX 1); OpPrepend (INT2FIX 2); OpShift; OpShift; OpShift;
   OpAppend (INT2FIX 3); OpAppend (INT2FIX 4)].

(** * Proofs *)

(** ** The monad *)

Lemma bind_Ok {A B} (c : M A) (f : A → M B) m a m' :
  c m = Ok a m' → (c ≫= f) m = f a m'.
Proof. intros H. unfold mbind, M_bind. by rewrite H. Qed.

Lemma bind_assoc {A B C} (c : M A) (f : A → M B) (g : B → M C) m :
  ((c ≫= f) ≫= g) m = (c ≫= λ a, f a ≫= g) m.
Proof. unfold mbind, M_bind. by destruct (c m). Qed.

(** ** Allocation *)

Lemma fresh_addr_not_NULL h : fresh_addr h ≠ NULL.
Proof.
  unfold fresh_addr. intros E.
  apply (is_fresh ({[NULL]} ∪ dom h)). rewrite E.
  apply elem_of_union_l. by apply elem_of_singleton.
Qed.

Lemma fresh_addr_None h : h !! fresh_addr h = None.
Proof.
  unfold fresh_addr. apply not_elem_of_dom. intros Hin.
  apply (is_fresh ({[NULL]} ∪ dom h)). by apply elem_of_union_r.
Qed.

Lemma fresh_obj_None o : o !! fresh_obj o = None.
Proof.
  unfold fresh_obj. apply not_elem_of_dom. intros Hin.
  apply (is_fresh ({[0]} ∪ dom o)). by apply elem_of_union_r.
Qed.

Lemma new_c_node_value_Ok v m :
  new_c_node_value v m =
    Ok (fresh_addr (heap m))
       (set_heap (<[fresh_addr (heap m) := NodeBlock (mkNode (Some NULL) (Some v))]> (heap m)) m).
Proof.
  unfold new_c_node_value, new_c_node, malloc, store_next, store_value, mbind, M_bind, mret, M_ret.
  cbn. rewrite !lookup_insert_eq. cbn. rewrite !lookup_insert_eq. cbn.
  by rewrite !insert_insert_eq.
Qed.

(** ** Chains *)

Lemma last_addr_elem (ns : list (Z * Z)) a w : a ∈ (ns ++ [(a, w)]).*1.
Proof.
  rewrite fmap_app. apply elem_of_app. right. apply list_elem_of_here.
Qed.

Lemma chain_det h p ns1 ns2 : chain h p ns1 → chain h p ns2 → ns1 = ns2.
Proof.
  revert p ns2. induction ns1 as [|[a v] ns1 IH]; intros p [|[b w] ns2]; cbn.
  - done.
  - intros -> (<- & Hb & _). done.
  - intros (-> & Ha & _) ->. done.
  - intros (-> & _ & q & Hq & Hc) (<- & _ & q' & Hq' & Hc').
    rewrite Hq in Hq'. simplify_eq. f_equal. eauto.
Qed.

(** The chain that starts at a node of a chain is a suffix of it. *)
Lemma chain_suffix h p ns a :
  chain h p ns → a ∈ ns.*1 →
  ∃ ns1 ns2, ns = ns1 ++ ns2 ∧ ns2 ≠ [] ∧ chain h a ns2.
Proof.
  revert p. induction ns as [|[b w] ns IH]; intros p; cbn.
  - intros _ Hin. by apply elem_of_nil in Hin.
  - intros (-> & Hb & q & Hq & Hc) Hin.
    apply elem_of_cons in Hin as [-> | Hin].
    + exists [], ((b, w) :: ns). cbn. eauto 10.
    + destruct (IH q Hc Hin) as (ns1 & ns2 & -> & Hne & Hc2).
      exists ((b, w) :: ns1), ns2. eauto.
Qed.

(** A chain visits no address twice: it has no cycle. *)
Lemma chain_NoDup h p ns : chain h p ns → NoDup ns.*1.
Proof.
  revert p. induction ns as [|[a v] ns IH]; intros p; cbn.
  - intros _. constructor.
  - intros (-> & Ha & q & Hq & Hc). constructor; [|by eauto].
    intros Hin.
    destruct (chain_suffix _ _ _ _ Hc Hin) as (ns1 & ns2 & -> & Hne & Hc2).
    assert (chain h a ((a, v) :: ns1 ++ ns2)) as Hc1 by (cbn; eauto).
    pose proof (chain_det _ _ _ _ Hc1 Hc2) as E.
    apply (f_equal length) in E. cbn in E. rewrite length_app in E. lia.
Qed.

Lemma chain_lookup h p ns a :
  chain h p ns → a ∈ ns.*1 →
  a ≠ NULL ∧ ∃ q v, h !! a = Some (NodeBlock (mkNode (Some q) (Some v))).
Proof.
  intros Hc Hin.
  destruct (chain_suffix _ _ _ _ Hc Hin) as (ns1 & [|[b w] ns2] & -> & Hne & Hc2); [done|].
  cbn in Hc2. destruct Hc2 as (-> & Hb & q & Hq & _). eauto.
Qed.

(** Blocks outside a chain can change without breaking it. *)
Lemma chain_insert h p ns a b :
  chain h p ns → a ∉ ns.*1 → chain (<[a := b]> h) p ns.
Proof.
  revert p. induction ns as [|[c w] ns IH]; intros p; cbn; [done|].
  intros (-> & Hc & q & Hq & Hch) Hnin.
  apply not_elem_of_cons in Hnin as [Hne Hnin].
  repeat split; [done|]. exists q. rewrite lookup_insert_ne by done. eauto.
Qed.

Lemma chain_delete h p ns a :
  chain h p ns → a ∉ ns.*1 → chain (delete a h) p ns.
Proof.
  revert p. induction ns as [|[c w] ns IH]; intros p; cbn; [done|].
  intros (-> & Hc & q & Hq & Hch) Hnin.
  apply not_elem_of_cons in Hnin as [Hne Hnin].
  repeat split; [done|]. exists q. rewrite lookup_delete_ne by done. eauto.
Qed.

Lemma chain_not_fresh h p ns : chain h p ns → fresh_addr h ∉ ns.*1.
Proof.
  intros Hc Hin. destruct (chain_lookup _ _ _ _ Hc Hin) as (_ & q & v & Hl).
  by rewrite fresh_addr_None in Hl.
Qed.

Lemma chain_not_list h p ns lp l :
  chain h p ns → h !! lp = Some (ListBlock l) → lp ∉ ns.*1.
Proof.
  intros Hc Hl Hin. destruct (chain_lookup _ _ _ _ Hc Hin) as (_ & q & v & Hl').
  congruence.
Qed.

(** The last node of a chain has no successor. *)
Lemma chain_last h p ns a w :
  chain h p (ns ++ [(a, w)]) →
  h !! a = Some (NodeBlock (mkNode (Some NULL) (Some w))).
Proof.
  revert p. induction ns as [|[c u] ns IH]; intros p; cbn.
  - by intros (_ & _ & q & Hq & ->).
  - intros (_ & _ & q & _ & Hch). eauto.
Qed.

(** Linking a new last node after the last node of a chain. *)
Lemma chain_snoc h p ns a w n v :
  chain h p (ns ++ [(a, w)]) → n ≠ NULL → h !! n = None →
  chain (<[a := NodeBlock (mkNode (Some n) (Some w))]>
           (<[n := NodeBlock (mkNode (Some NULL) (Some v))]> h))
        p ((ns ++ [(a, w)]) ++ [(n, v)]).
Proof.
  intros Hc Hn Hfresh.
  pose proof (chain_NoDup _ _ _ Hc) as Hnd.
  assert (a ≠ n) as Han.
  { intros ->. destruct (chain_lookup h p (ns ++ [(n, w)]) n Hc) as (_ & q & u & Hl).
    - apply last_addr_elem.
    - congruence. }
  revert p Hc Hnd. induction ns as [|[c u] ns IH]; intros p; cbn.
  - intros (-> & Ha & q & Hq & ->) _. repeat split; [done|].
    exists n. rewrite lookup_insert_eq. split; [done|].
    repeat split; [done|]. exists NULL.
    rewrite lookup_insert_ne by done. rewrite lookup_insert_eq. done.
  - intros (-> & Hcn & q & Hq & Hch) Hnd.
    apply NoDup_cons in Hnd as [Hnin Hnd].
    repeat split; [done|]. exists q. split; [|by eauto].
    rewrite fmap_app in Hnin. cbn in Hnin.
    rewrite !lookup_insert_ne; [done| |].
    + intros ->. congruence.
    + intros ->. apply Hnin, elem_of_app. right. apply list_elem_of_here.
Qed.

(** The nodes reachable from the start of a chain are its nodes (and NULL). *)
Lemma chain_reachable h p ns q :
  chain h p ns → reachable h p q → q = NULL ∨ q ∈ ns.*1.
Proof.
  intros Hc Hr. revert ns Hc. induction Hr as [p | p p' q Hstep Hr IH]; intros ns Hc.
  - destruct ns as [|[a v] ns]; cbn in *; [by left|].
    destruct Hc as (-> & _). right. apply list_elem_of_here.
  - destruct Hstep as (Hp & v & Hl).
    destruct ns as [|[a w] ns]; cbn in Hc; [done|].
    destruct Hc as (-> & _ & q' & Hq' & Hc).
    rewrite Hl in Hq'. simplify_eq.
    destruct (IH _ Hc) as [-> | Hin]; [by left|]. right. cbn.
    by apply list_elem_of_further.
Qed.

Lemma reachable_chain h p ns q :
  chain h p ns → q ∈ ns.*1 → reachable h p q.
Proof.
  revert p. induction ns as [|[a v] ns IH]; intros p; cbn.
  - intros _ Hin. by apply elem_of_nil in Hin.
  - intros (-> & Ha & q' & Hq' & Hc) Hin.
    apply elem_of_cons in Hin as [E | Hin]; [subst q; apply rtc_refl|].
    apply (rtc_l _ _ q'); [|by apply IH]. split; [done|]. eauto.
Qed.

(** ** The loops on a chain *)

Lemma chain_head_not_NULL h p a v ns : chain h p ((a, v) :: ns) → p ≠ NULL.
Proof. cbn. by intros (-> & Ha & _). Qed.

Lemma rb_linked_list_append_loop_Ok fuel m p ns a w :
  chain (heap m) p (ns ++ [(a, w)]) → (length ns < fuel)%nat →
  rb_linked_list_append_loop fuel p m = Ok a m.
Proof.
  revert fuel p. induction ns as [|[c u] ns IH]; intros [|fuel] p; cbn; try lia.
  - intros (-> & Ha & q & Hq & ->) _.
    unfold mbind, M_bind, load_next. rewrite Hq. by rewrite decide_True.
  - intros (-> & Hc & q & Hq & Hch) Hlt.
    unfold mbind, M_bind, load_next. rewrite Hq.
    assert (q ≠ NULL) as Hqn.
    { destruct ns as [|[d x] ns]; cbn in Hch; by destruct Hch as (-> & ? & _). }
    rewrite decide_False by done. apply IH; [done|lia].
Qed.

Lemma linked_list_mark_loop_Ok fuel m p ns :
  chain (heap m) p ns → (length ns < fuel)%nat →
  linked_list_mark_loop fuel p m =
    Ok tt (set_gc_marks (gc_marks m ++ filter (λ v, v ≠ 0) ns.*2) m).
Proof.
  revert fuel p m. induction ns as [|[a v] ns IH]; intros [|fuel] p m; cbn; try lia.
  - intros -> _. rewrite decide_True by done. rewrite app_nil_r. by destruct m.
  - intros (-> & Ha & q & Hq & Hch) Hlt.
    rewrite decide_False by done.
    unfold mbind, M_bind, load_value, load_next. rewrite Hq.
    destruct (decide (v = 0)) as [->|Hv].
    + cbn. rewrite Hq. rewrite decide_False by (intros H; by apply H).
      apply IH; [done|lia].
    + cbn. rewrite Hq. rewrite decide_True by done.
      rewrite (IH fuel q (set_gc_marks (gc_marks m ++ [v]) m)); [|done|lia].
      cbn. unfold set_gc_marks. cbn. by rewrite <- app_assoc.
Qed.

(** ** Strings *)

Lemma string_app_cons a s t : String a s +:+ t = String a (s +:+ t).
Proof. reflexivity. Qed.

Lemma string_app_nil_l s : "" +:+ s = s.
Proof. reflexivity. Qed.

Lemma string_app_nil_r s : s +:+ "" = s.
Proof. induction s as [|a s IH]; [done|]. by rewrite string_app_cons, IH. Qed.

Lemma string_app_assoc s1 s2 s3 : (s1 +:+ s2) +:+ s3 = s1 +:+ (s2 +:+ s3).
Proof.
  induction s1 as [|a s1 IH]; [done|]. by rewrite !string_app_cons, IH.
Qed.

Lemma items_false s ss : items false (s :: ss) = ", " +:+ String.concat ", " (s :: ss).
Proof.
  revert s. induction ss as [|t ss IH]; intros s.
  - cbn [items String.concat]. by rewrite string_app_nil_r.
  - cbn [items]. cbn [items] in IH. rewrite IH. reflexivity.
Qed.

Lemma items_true ss : items true ss = String.concat ", " ss.
Proof.
  destruct ss as [|s [|t ss]]; [done| |].
  - cbn [items String.concat]. rewrite string_app_nil_l. apply string_app_nil_r.
  - cbn [items]. cbn [items] in *.
    pose proof (items_false t ss) as E. cbn [items] in E. rewrite E.
    reflexivity.
Qed.

Lemma wrap_long_id z : - 2 ^ 63 ≤ z ≤ LONG_MAX → wrap_long z = z.
Proof.
  unfold wrap_long, LONG_MAX. intros H.
  rewrite Z.mod_small by lia. lia.
Qed.

Lemma rb_linked_list_inspect_loop_Ok rb_inspect render fuel m p ns i str :
  chain (heap m) p ns → (length ns < fuel)%nat →
  0 ≤ i → i + Z.of_nat (length ns) ≤ LONG_MAX →
  renders_at rb_inspect m render ns.*2 →
  rb_linked_list_inspect_loop rb_inspect fuel p i str m =
    Ok (str +:+ items (bool_decide (i = 0)) (map render ns.*2)) m.
Proof.
  revert fuel p i str. induction ns as [|[a v] ns IH]; intros [|fuel] p i str; cbn; try lia.
  - intros -> _ _ _ _. rewrite decide_True by done. by rewrite string_app_nil_r.
  - intros (-> & Ha & q & Hq & Hch) Hlt Hi Hmax Hr.
    rewrite decide_False by done.
    unfold mbind, M_bind, load_value, load_next. rewrite Hq.
    rewrite (Hr v) by apply list_elem_of_here. rewrite Hq.
    rewrite wrap_long_id by (unfold LONG_MAX in *; lia).
    rewrite IH; [|done|lia|lia|lia|];
      [|intros w Hw; apply Hr; by apply list_elem_of_further].
    rewrite (bool_decide_eq_false_2 (i + 1 = 0)) by lia.
    f_equal. destruct (decide (0 < i)).
    + rewrite bool_decide_eq_false_2 by lia.
      by rewrite !string_app_assoc.
    + rewrite bool_decide_eq_true_2 by lia.
      by rewrite string_app_nil_l, !string_app_assoc.
Qed.

(** ** What each function does to a well-formed list *)

Lemma rb_linked_list_allocate_spec klass m :
  ∃ m', rb_linked_list_allocate klass m = Ok (fresh_obj (objs m)) m' ∧
        is_list m' (fresh_obj (objs m)) klass (fresh_addr (heap m)) [] ∧
        gc_marks m' = gc_marks m.
Proof.
  unfold rb_linked_list_allocate, malloc, TypedData_Wrap_Struct, store_head,
    mbind, M_bind, mret, M_ret.
  cbn. rewrite lookup_insert_eq. cbn. eexists. split; [done|].
  split; [|done]. split; cbn.
  - by rewrite lookup_insert_eq.
  - exists NULL. by rewrite lookup_insert_eq.
Qed.

Lemma rb_linked_list_append_spec fuel m self klass lp ns v :
  is_list m self klass lp ns → (length ns ≤ fuel)%nat →
  ∃ m', rb_linked_list_append fuel self v m = Ok self m' ∧
        is_list m' self klass lp (ns ++ [(fresh_addr (heap m), v)]) ∧
        objs m' = objs m ∧ gc_marks m' = gc_marks m.
Proof.
  intros (Hobj & hd & Hlp & Hch) Hfuel.
  pose proof (fresh_addr_not_NULL (heap m)) as Hn.
  pose proof (fresh_addr_None (heap m)) as Hfresh.
  assert (lp ≠ fresh_addr (heap m)) as Hne by (intros ->; congruence).
  unfold rb_linked_list_append, TypedData_Get_Struct, load_head, mbind, M_bind.
  rewrite Hobj, Hlp.
  destruct ns as [|[a w] ns0 _] using rev_ind.
  - cbn in Hch. subst hd. rewrite decide_True by done.
    rewrite new_c_node_value_Ok. unfold store_head, mret, M_ret. cbn.
    rewrite lookup_insert_ne by done. rewrite Hlp.
    eexists. split; [done|]. split; [|done]. split; [done|]. cbn.
    exists (fresh_addr (heap m)). rewrite lookup_insert_eq. split; [done|].
    repeat split; [done|]. exists NULL.
    rewrite lookup_insert_ne by done. by rewrite lookup_insert_eq.
  - rewrite decide_False by (destruct ns0 as [|[??]?]; eapply chain_head_not_NULL, Hch).
    rewrite length_app in Hfuel. cbn in Hfuel.
    rewrite (rb_linked_list_append_loop_Ok fuel m hd ns0 a w) by (done || lia).
    rewrite new_c_node_value_Ok. unfold store_next, mret, M_ret. cbn.
    pose proof (chain_last _ _ _ _ _ Hch) as Hq.
    assert (a ≠ fresh_addr (heap m)) as Hane by (intros ->; congruence).
    rewrite lookup_insert_ne by done. rewrite Hq. cbn.
    eexists. split; [done|]. split; [|done]. split; [done|]. cbn.
    exists hd. split.
    + rewrite !lookup_insert_ne; [done|done|].
      intros ->. congruence.
    + by apply chain_snoc.
Qed.

Lemma rb_linked_list_prepend_Ok m self klass lp hd v :
  objs m !! self = Some (klass, lp) →
  heap m !! lp = Some (ListBlock (mkList (Some hd))) →
  rb_linked_list_prepend self v m =
    Ok self
       (set_heap
          (<[lp := ListBlock (mkList (Some (fresh_addr (heap m))))]>
             (<[fresh_addr (heap m) := NodeBlock (mkNode (Some hd) (Some v))]> (heap m)))
          m).
Proof.
  intros Hobj Hlp.
  pose proof (fresh_addr_None (heap m)) as Hfresh.
  assert (fresh_addr (heap m) ≠ lp) as Hne by (intros E; congruence).
  unfold rb_linked_list_prepend, TypedData_Get_Struct, mbind, M_bind.
  rewrite Hobj. rewrite new_c_node_value_Ok.
  unfold load_head, store_next, store_head, mret, M_ret. cbn.
  rewrite lookup_insert_ne by done. rewrite Hlp. cbn.
  rewrite lookup_insert_eq. cbn.
  rewrite lookup_insert_ne by done. rewrite lookup_insert_ne by done.
  rewrite Hlp. by rewrite insert_insert_eq.
Qed.

Lemma rb_linked_list_prepend_spec m self klass lp ns v :
  is_list m self klass lp ns →
  ∃ m', rb_linked_list_prepend self v m = Ok self m' ∧
        is_list m' self klass lp ((fresh_addr (heap m), v) :: ns) ∧
        objs m' = objs m ∧ gc_marks m' = gc_marks m.
Proof.
  intros (Hobj & hd & Hlp & Hch).
  pose proof (fresh_addr_None (heap m)) as Hfresh.
  assert (fresh_addr (heap m) ≠ lp) as Hne by (intros E; congruence).
  rewrite (rb_linked_list_prepend_Ok m self klass lp hd v) by done.
  eexists. split; [done|]. split; [|done]. split; [done|]. cbn.
  exists (fresh_addr (heap m)). rewrite lookup_insert_eq. split; [done|].
  repeat split; [apply fresh_addr_not_NULL|]. exists hd.
  rewrite lookup_insert_ne by done. rewrite lookup_insert_eq. split; [done|].
  apply chain_insert.
  - apply chain_insert; [done|]. by eapply chain_not_fresh.
  - eapply chain_not_list; [exact Hch | exact Hlp].
Qed.

Lemma rb_linked_list_shift_node_Ok m self klass lp a q v :
  objs m !! self = Some (klass, lp) →
  heap m !! lp = Some (ListBlock (mkList (Some a))) →
  a ≠ NULL →
  heap m !! a = Some (NodeBlock (mkNode (Some q) (Some v))) →
  rb_linked_list_shift self m =
    Ok v (set_heap (<[lp := ListBlock (mkList (Some q))]> (delete a (heap m))) m).
Proof.
  intros Hobj Hlp Ha Hq.
  assert (a ≠ lp) as Hne by (intros E; congruence).
  unfold rb_linked_list_shift, TypedData_Get_Struct, load_head, load_next, load_value,
    free, store_head, mbind, M_bind, mret, M_ret.
  rewrite Hobj, Hlp. rewrite decide_False by done. cbn.
  rewrite Hlp, Hq. cbn. rewrite Hlp, Hq. cbn. rewrite Hlp.
  rewrite decide_False by done. rewrite Hq. cbn.
  rewrite lookup_delete_ne by done. by rewrite Hlp.
Qed.

Lemma rb_linked_list_shift_cons_spec m self klass lp a v ns :
  is_list m self klass lp ((a, v) :: ns) →
  ∃ m', rb_linked_list_shift self m = Ok v m' ∧
        is_list m' self klass lp ns ∧
        heap m' !! a = None ∧
        objs m' = objs m ∧ gc_marks m' = gc_marks m.
Proof.
  intros (Hobj & hd & Hlp & Hch).
  pose proof (chain_NoDup _ _ _ Hch) as Hnd.
  cbn in Hch. destruct Hch as (-> & Ha & q & Hq & Hch).
  cbn in Hnd. apply NoDup_cons in Hnd as [Hnin _].
  assert (a ≠ lp) as Hne by (intros E; congruence).
  rewrite (rb_linked_list_shift_node_Ok m self klass lp a q v) by done.
  eexists. split; [done|]. split; [|split; [|done]].
  - split; [done|]. cbn. exists q. rewrite lookup_insert_eq. split; [done|].
    apply chain_insert.
    + by apply chain_delete.
    + eapply chain_not_list; [exact Hch | exact Hlp].
  - cbn. rewrite lookup_insert_ne by done. apply lookup_delete_eq.
Qed.

Lemma rb_linked_list_shift_nil_Ok m self klass lp :
  objs m !! self = Some (klass, lp) →
  heap m !! lp = Some (ListBlock (mkList (Some NULL))) →
  rb_linked_list_shift self m = Ok Qnil m.
Proof.
  intros Hobj Hlp.
  unfold rb_linked_list_shift, TypedData_Get_Struct, load_head, mbind, M_bind.
  rewrite Hobj, Hlp. by rewrite decide_True.
Qed.

Lemma rb_linked_list_shift_nil_spec m self klass lp :
  is_list m self klass lp [] → rb_linked_list_shift self m = Ok Qnil m.
Proof.
  intros (Hobj & hd & Hlp & ->). by eapply rb_linked_list_shift_nil_Ok.
Qed.

Lemma linked_list_mark_spec fuel m self klass lp ns :
  is_list m self klass lp ns → (length ns < fuel)%nat →
  linked_list_mark fuel lp m =
    Ok tt (set_gc_marks (gc_marks m ++ filter (λ v, v ≠ 0) ns.*2) m).
Proof.
  intros (Hobj & hd & Hlp & Hch) Hfuel.
  unfold linked_list_mark, load_head, mbind, M_bind. rewrite Hlp.
  by apply linked_list_mark_loop_Ok.
Qed.

Lemma rb_linked_list_inspect_spec rb_inspect render fuel m self klass lp ns :
  is_list m self klass lp ns → (length ns < fuel)%nat →
  Z.of_nat (length ns) ≤ LONG_MAX →
  renders_at rb_inspect m render ns.*2 →
  rb_linked_list_inspect rb_inspect fuel self m =
    Ok (inspect_spec render klass ns.*2) m.
Proof.
  intros (Hobj & hd & Hlp & Hch) Hfuel Hmax Hr.
  unfold rb_linked_list_inspect, TypedData_Get_Struct, load_head, rb_class_of,
    mbind, M_bind, mret, M_ret.
  rewrite Hobj, Hlp. cbn. rewrite Hobj.
  rewrite (rb_linked_list_inspect_loop_Ok rb_inspect render fuel m hd ns) by (done || lia).
  rewrite bool_decide_eq_true_2 by done. rewrite items_true.
  unfold inspect_spec. by rewrite !string_app_assoc.
Qed.

(** ** Sequences of calls on a well-formed list *)

Lemma appends_spec fuel m self klass lp ns vs :
  is_list m self klass lp ns → (length ns + length vs ≤ fuel)%nat →
  ∃ m' ns', appends fuel self vs m = Ok tt m' ∧
            is_list m' self klass lp (ns ++ ns') ∧ ns'.*2 = vs.
Proof.
  revert m ns. induction vs as [|v vs IH]; intros m ns Hl Hfuel; cbn in *.
  - exists m, []. by rewrite app_nil_r.
  - destruct (rb_linked_list_append_spec fuel m self klass lp ns v Hl)
      as (m1 & E1 & Hl1 & _); [lia|].
    destruct (IH m1 (ns ++ [(fresh_addr (heap m), v)]) Hl1) as (m2 & ns2 & E2 & Hl2 & Hv).
    { rewrite length_app. cbn. lia. }
    exists m2, ((fresh_addr (heap m), v) :: ns2).
    rewrite (bind_Ok _ _ _ _ _ E1). split; [done|].
    rewrite <- app_assoc in Hl2. cbn in Hl2. split; [done|]. cbn. by f_equal.
Qed.

Lemma prepends_spec m self klass lp ns vs :
  is_list m self klass lp ns →
  ∃ m' ns', prepends self vs m = Ok tt m' ∧
            is_list m' self klass lp (ns' ++ ns) ∧ ns'.*2 = rev vs.
Proof.
  revert m ns. induction vs as [|v vs IH]; intros m ns Hl; cbn.
  - by exists m, [].
  - destruct (rb_linked_list_prepend_spec m self klass lp ns v Hl) as (m1 & E1 & Hl1 & _).
    destruct (IH m1 _ Hl1) as (m2 & ns2 & E2 & Hl2 & Hv).
    exists m2, (ns2 ++ [(fresh_addr (heap m), v)]).
    rewrite (bind_Ok _ _ _ _ _ E1). split; [done|].
    rewrite <- app_assoc. cbn. split; [done|].
    rewrite fmap_app. cbn. by rewrite Hv.
Qed.

Lemma shifts_empty_spec m self klass lp k :
  is_list m self klass lp [] → shifts self k m = Ok (replicate k Qnil) m.
Proof.
  intros Hl. induction k as [|k IH]; cbn; [done|].
  rewrite (bind_Ok _ _ _ _ _ (rb_linked_list_shift_nil_spec m self klass lp Hl)).
  by rewrite (bind_Ok _ _ _ _ _ IH).
Qed.

Lemma shifts_spec m self klass lp ns k :
  is_list m self klass lp ns →
  ∃ m', shifts self (length ns + k) m = Ok (ns.*2 ++ replicate k Qnil) m' ∧
        is_list m' self klass lp [].
Proof.
  revert m. induction ns as [|[a v] ns IH]; intros m Hl; cbn.
  - exists m. split; [|done]. by eapply shifts_empty_spec.
  - destruct (rb_linked_list_shift_cons_spec m self klass lp a v ns Hl)
      as (m1 & E1 & Hl1 & _).
    destruct (IH m1 Hl1) as (m2 & E2 & Hl2).
    exists m2. rewrite (bind_Ok _ _ _ _ _ E1). rewrite (bind_Ok _ _ _ _ _ E2).
    done.
Qed.

Lemma linked_list_free_keeps_nodes m self klass lp ns :
  is_list m self klass lp ns →
  ∃ m', linked_list_free lp m = Ok tt m' ∧
        ∀ a, a ∈ ns.*1 → heap m' !! a = heap m !! a ∧ is_Some (heap m' !! a).
Proof.
  intros (Hobj & hd & Hlp & Hch). unfold linked_list_free, free.
  destruct (decide (lp = NULL)) as [E|E].
  - exists m. split; [done|]. intros a Ha. split; [done|].
    destruct (chain_lookup _ _ _ _ Hch Ha) as (_ & q & v & Hl). by rewrite Hl.
  - rewrite Hlp. eexists. split; [done|]. intros a Ha. cbn.
    destruct (chain_lookup _ _ _ _ Hch Ha) as (_ & q & v & Hl).
    assert (lp ≠ a) as Hne by (intros ->; congruence).
    rewrite lookup_delete_ne by done. by rewrite Hl.
Qed.

Lemma run_ops_spec fuel m self klass lp ns os :
  is_list m self klass lp ns → (length ns + length os ≤ fuel)%nat →
  ∃ m' ns', run_ops fuel self os m = Ok tt m' ∧
            is_list m' self klass lp ns' ∧
            ns'.*2 = fold_left stored_step os ns.*2 ∧
            length ns' = fold_left stored_count_step os (length ns).
Proof.
  revert m ns. induction os as [|o os IH]; intros m ns Hl Hfuel; cbn in *.
  - by exists m, ns.
  - destruct o as [v|v|].
    + destruct (rb_linked_list_append_spec fuel m self klass lp ns v Hl)
        as (m1 & E1 & Hl1 & _); [lia|].
      destruct (IH m1 _ Hl1) as (m2 & ns2 & E2 & Hl2 & Hv & Hn).
      { rewrite length_app. cbn. lia. }
      exists m2, ns2. unfold run_op. rewrite bind_assoc.
      rewrite (bind_Ok _ _ _ _ _ E1). cbn. split; [done|]. split; [done|].
      rewrite Hv, Hn, fmap_app, length_app. cbn.
      by replace (length ns + 1)%nat with (S (length ns)) by lia.
    + destruct (rb_linked_list_prepend_spec m self klass lp ns v Hl)
        as (m1 & E1 & Hl1 & _).
      destruct (IH m1 _ Hl1) as (m2 & ns2 & E2 & Hl2 & Hv & Hn).
      { cbn. lia. }
      exists m2, ns2. unfold run_op. rewrite bind_assoc.
      rewrite (bind_Ok _ _ _ _ _ E1). cbn. done.
    + destruct ns as [|[a v] ns].
      * destruct (IH m [] Hl) as (m2 & ns2 & E2 & Hl2 & Hv & Hn); [cbn; lia|].
        exists m2, ns2. unfold run_op. rewrite bind_assoc.
        rewrite (bind_Ok _ _ _ _ _ (rb_linked_list_shift_nil_spec m self klass lp Hl)).
        cbn. done.
      * destruct (rb_linked_list_shift_cons_spec m self klass lp a v ns Hl)
          as (m1 & E1 & Hl1 & _).
        destruct (IH m1 _ Hl1) as (m2 & ns2 & E2 & Hl2 & Hv & Hn); [cbn in *; lia|].
        exists m2, ns2. unfold run_op. rewrite bind_assoc.
        rewrite (bind_Ok _ _ _ _ _ E1). cbn. done.
Qed.

(** ** Return values *)

Lemma rb_linked_list_append_returns_self fuel self v m r m' :
  rb_linked_list_append fuel self v m = Ok r m' → r = self.
Proof.
  unfold rb_linked_list_append, mbind, M_bind, mret, M_ret.
  intros H. repeat case_match; by simplify_eq.
Qed.

Lemma rb_linked_list_prepend_returns_self self v m r m' :
  rb_linked_list_prepend self v m = Ok r m' → r = self.
Proof.
  unfold rb_linked_list_prepend, mbind, M_bind, mret, M_ret.
  intros H. repeat case_match; by simplify_eq.
Qed.

Lemma rb_linked_list_append_chained fuel self a b m :
  (rb_linked_list_append fuel self a ≫= λ r, rb_linked_list_append fuel r b) m =
  (rb_linked_list_append fuel self a ≫= λ _, rb_linked_list_append fuel self b) m.
Proof.
  unfold mbind, M_bind.
  destruct (rb_linked_list_append fuel self a m) as [r m1| | |] eqn:E; [|done..].
  by apply rb_linked_list_append_returns_self in E as ->.
Qed.

Lemma rb_linked_list_prepend_chained self a b m :
  (rb_linked_list_prepend self a ≫= λ r, rb_linked_list_prepend r b) m =
  (rb_linked_list_prepend self a ≫= λ _, rb_linked_list_prepend self b) m.
Proof.
  unfold mbind, M_bind.
  destruct (rb_linked_list_prepend self a m) as [r m1| | |] eqn:E; [|done..].
  by apply rb_linked_list_prepend_returns_self in E as ->.
Qed.

(** * The claims *)

(** C1. Appending [v1..vn] to a new list and then shifting returns
    [v1, ..., vn] in that order, and every later shift returns [Qnil]:
    with enough fuel for the tail scans, allocation, the appends and
    [n + k] shifts all return, and the shifts yield [vs] followed by [k]
    times [Qnil]; the list is empty afterwards. *)
Theorem append_then_shift_is_fifo klass vs k fuel m0 :
  (length vs ≤ fuel)%nat →
  ∃ self lp m,
    (self ← rb_linked_list_allocate klass;
     appends fuel self vs;;
     rs ← shifts self (length vs + k);
     mret (self, rs)) m0
    = Ok (self, vs ++ replicate k Qnil) m ∧
    is_list m self klass lp [].
Proof.
  intros Hfuel.
  destruct (rb_linked_list_allocate_spec klass m0) as (m1 & E1 & Hl1 & _).
  destruct (appends_spec fuel m1 _ _ _ [] vs Hl1) as (m2 & ns & E2 & Hl2 & Hv);
    [cbn; lia|].
  cbn in Hl2.
  destruct (shifts_spec m2 _ _ _ ns k Hl2) as (m3 & E3 & Hl3).
  exists (fresh_obj (objs m0)), (fresh_addr (heap m0)), m3.
  rewrite (bind_Ok _ _ _ _ _ E1). rewrite (bind_Ok _ _ _ _ _ E2).
  assert (length vs = length ns) as -> by (rewrite <- Hv; by rewrite length_fmap).
  rewrite (bind_Ok _ _ _ _ _ E3). by rewrite Hv.
Qed.

(** C2. Prepending [v1..vn] to a new list and then shifting [n] times returns
    [vn, ..., v1]: the reverse of the insertion order. *)
Theorem prepend_then_shift_is_lifo klass vs m0 :
  ∃ self lp m,
    (self ← rb_linked_list_allocate klass;
     prepends self vs;;
     rs ← shifts self (length vs);
     mret (self, rs)) m0
    = Ok (self, rev vs) m ∧
    is_list m self klass lp [].
Proof.
  destruct (rb_linked_list_allocate_spec klass m0) as (m1 & E1 & Hl1 & _).
  destruct (prepends_spec m1 _ _ _ [] vs Hl1) as (m2 & ns & E2 & Hl2 & Hv).
  rewrite app_nil_r in Hl2.
  destruct (shifts_spec m2 _ _ _ ns 0 Hl2) as (m3 & E3 & Hl3).
  exists (fresh_obj (objs m0)), (fresh_addr (heap m0)), m3.
  rewrite (bind_Ok _ _ _ _ _ E1). rewrite (bind_Ok _ _ _ _ _ E2).
  assert (length vs = (length ns + 0)%nat) as ->.
  { rewrite <- (length_fmap snd ns), Hv, length_rev. lia. }
  rewrite (bind_Ok _ _ _ _ _ E3). cbn. by rewrite Hv, app_nil_r.
Qed.

(** C3, as the code has it. [linked_list_mark] walks the chain once from the
    head and returns; it tells the collector, in head-to-tail order and once
    per node, the value of every node whose handle is not the zero word, and
    changes nothing else.  The handle it skips is 0 (Ruby's [false]); a stored
    [nil], the value [shift] returns on an empty list, is reported like any
    other value. *)
Theorem linked_list_mark_reports_nonzero_values fuel m self klass lp ns :
  is_list m self klass lp ns → (length ns < fuel)%nat →
  linked_list_mark fuel lp m =
    Ok tt (set_gc_marks (gc_marks m ++ mark_spec 0 ns.*2) m) ∧
  (∀ v, v ∈ mark_spec 0 ns.*2 ↔ v ∈ ns.*2 ∧ v ≠ 0) ∧
  (length (mark_spec 0 ns.*2) ≤ length ns)%nat.
Proof.
  intros Hl Hfuel. split; [by eapply linked_list_mark_spec|]. split.
  - intros v. unfold mark_spec. rewrite list_elem_of_filter.
    split; intros [H1 H2]; by split.
  - unfold mark_spec. rewrite <- (length_fmap snd ns). apply length_filter.
Qed.

(** C4 on the code: the free hook run on the list [1, 2, 3] releases the list
    struct and returns; the three nodes are still allocated afterwards, and
    nothing refers to them any more. *)
Theorem linked_list_free_leaks_the_nodes :
  ∃ m,
    linked_list_free 1 sample_mem = Ok tt m ∧
    heap m !! 1 = None ∧
    heap m !! 2 = Some (NodeBlock (mkNode (Some 3) (Some (INT2FIX 1)))) ∧
    heap m !! 3 = Some (NodeBlock (mkNode (Some 4) (Some (INT2FIX 2)))) ∧
    heap m !! 4 = Some (NodeBlock (mkNode (Some NULL) (Some (INT2FIX 3)))) ∧
    size (heap m) = 3%nat.
Proof.
  eexists. split; [vm_compute; reflexivity|]. vm_compute. by repeat split.
Qed.

(** C5. [shift] on an empty list is no error: it returns [Qnil] and leaves
    the whole memory, so the (empty) list too, as it was. *)
Theorem shift_on_empty_returns_Qnil m self klass lp :
  is_list m self klass lp [] →
  rb_linked_list_shift self m = Ok Qnil m ∧ is_list m self klass lp [].
Proof.
  intros Hl. split; [|done]. by eapply rb_linked_list_shift_nil_spec.
Qed.

(** C6, as the code has it. When the host renders each stored value without
    touching the memory ([renders_at]), [inspect] returns, leaves the memory
    as it was, and renders the class name followed by the renderings of the
    stored values, head first, between braces and separated by commas; a new
    list renders with empty braces whatever the host, and a list built by
    three appends renders the three values in that order.  The call of
    [rb_inspect] on a stored value runs code of the host: for values that
    do not render this way (a list that holds itself, a value whose
    [inspect] changes the list) the code promises no rendering. *)
Theorem inspect_renders_values rb_inspect render fuel m self klass lp ns :
  is_list m self klass lp ns → (length ns < fuel)%nat →
  Z.of_nat (length ns) ≤ LONG_MAX →
  renders_at rb_inspect m render ns.*2 →
  rb_linked_list_inspect rb_inspect fuel self m
    = Ok (inspect_spec render klass ns.*2) m ∧
  (∀ m0, ∃ obj m1,
     (obj ← rb_linked_list_allocate klass;
      s ← rb_linked_list_inspect rb_inspect 1 obj;
      mret (obj, s)) m0
     = Ok (obj, "#<" +:+ rb_class_name klass +:+ " {}>") m1) ∧
  (∀ m0 v1 v2 v3, ∃ obj m1,
     (obj ← rb_linked_list_allocate klass;
      rb_linked_list_append 3 obj v1;;
      rb_linked_list_append 3 obj v2;;
      rb_linked_list_append 3 obj v3;;
      mret obj) m0
     = Ok obj m1 ∧
     (renders_at rb_inspect m1 render [v1; v2; v3] →
      rb_linked_list_inspect rb_inspect 4 obj m1
      = Ok ("#<" +:+ rb_class_name klass +:+ " {" +:+
            render v1 +:+ ", " +:+ render v2 +:+ ", " +:+ render v3 +:+ "}>") m1)).
Proof.
  intros Hl Hfuel Hmax Hr. split; [by eapply rb_linked_list_inspect_spec|]. split.
  - intros m0.
    destruct (rb_linked_list_allocate_spec klass m0) as (m1 & E1 & Hl1 & _).
    exists (fresh_obj (objs m0)), m1.
    rewrite (bind_Ok _ _ _ _ _ E1).
    rewrite (bind_Ok _ _ _ _ _ (rb_linked_list_inspect_spec rb_inspect render 1 m1 _ _ _ []
      Hl1 ltac:(cbn; lia) ltac:(cbn; unfold LONG_MAX; lia)
      ltac:(intros v Hv; by apply elem_of_nil in Hv))).
    done.
  - intros m0 v1 v2 v3.
    destruct (rb_linked_list_allocate_spec klass m0) as (m1 & E1 & Hl1 & _).
    destruct (rb_linked_list_append_spec 3 m1 _ _ _ _ v1 Hl1) as (m2 & E2 & Hl2 & _);
      [cbn; lia|].
    destruct (rb_linked_list_append_spec 3 m2 _ _ _ _ v2 Hl2) as (m3 & E3 & Hl3 & _);
      [cbn; lia|].
    destruct (rb_linked_list_append_spec 3 m3 _ _ _ _ v3 Hl3) as (m4 & E4 & Hl4 & _);
      [cbn; lia|].
    exists (fresh_obj (objs m0)), m4.
    rewrite (bind_Ok _ _ _ _ _ E1). rewrite (bind_Ok _ _ _ _ _ E2).
    rewrite (bind_Ok _ _ _ _ _ E3). rewrite (bind_Ok _ _ _ _ _ E4).
    split; [done|]. intros Hr4.
    rewrite (rb_linked_list_inspect_spec rb_inspect render 4 m4 _ _ _ _ Hl4
      ltac:(cbn; lia) ltac:(cbn; unfold LONG_MAX; lia) Hr4).
    unfold inspect_spec. cbn. by rewrite !string_app_assoc.
Qed.

(** C7. On a list, [append] and [prepend] return and their result is [self];
    a chained call, which passes that result on as the receiver of the next
    call, is the same computation as two calls on [self], and it leaves the
    two values linked in. *)
Theorem append_and_prepend_return_self fuel m self klass lp ns a b :
  is_list m self klass lp ns → (length ns < fuel)%nat →
  (∃ m1, rb_linked_list_append fuel self a m = Ok self m1) ∧
  (∃ m1, rb_linked_list_prepend self a m = Ok self m1) ∧
  (rb_linked_list_append fuel self a ≫= λ r, rb_linked_list_append fuel r b) m =
    (rb_linked_list_append fuel self a ≫= λ _, rb_linked_list_append fuel self b) m ∧
  (rb_linked_list_prepend self a ≫= λ r, rb_linked_list_prepend r b) m =
    (rb_linked_list_prepend self a ≫= λ _, rb_linked_list_prepend self b) m ∧
  (∃ m2 n1 n2,
     (rb_linked_list_append fuel self a ≫= λ r, rb_linked_list_append fuel r b) m
       = Ok self m2 ∧
     is_list m2 self klass lp (ns ++ [(n1, a); (n2, b)])) ∧
  (∃ m2 n1 n2,
     (rb_linked_list_prepend self a ≫= λ r, rb_linked_list_prepend r b) m
       = Ok self m2 ∧
     is_list m2 self klass lp ((n2, b) :: (n1, a) :: ns)).
Proof.
  intros Hl Hfuel.
  destruct (rb_linked_list_append_spec fuel m self klass lp ns a Hl)
    as (m1 & E1 & Hl1 & _); [lia|].
  destruct (rb_linked_list_append_spec fuel m1 self klass lp _ b Hl1)
    as (m2 & E2 & Hl2 & _); [rewrite length_app; cbn; lia|].
  destruct (rb_linked_list_prepend_spec m self klass lp ns a Hl)
    as (p1 & F1 & Hp1 & _).
  destruct (rb_linked_list_prepend_spec p1 self klass lp _ b Hp1)
    as (p2 & F2 & Hp2 & _).
  split; [by eauto|]. split; [by eauto|].
  split; [apply rb_linked_list_append_chained|].
  split; [apply rb_linked_list_prepend_chained|]. split.
  - exists m2, (fresh_addr (heap m)), (fresh_addr (heap m1)).
    rewrite (bind_Ok _ _ _ _ _ E1). split; [done|].
    by rewrite <- app_assoc in Hl2.
  - exists p2, (fresh_addr (heap m)), (fresh_addr (heap p1)).
    by rewrite (bind_Ok _ _ _ _ _ F1).
Qed.

(** C8. After allocation and any sequence of append, prepend and shift calls
    (with enough fuel for the tail scans) the calls have all returned, and
    the head starts a chain that ends in NULL and visits no node twice; the
    nodes reachable from the head are the nodes of that chain, they hold the
    values logically stored, their number is the number of values inserted
    and not yet shifted out, and the traversal of [linked_list_mark]
    returns. *)
Theorem chain_is_acyclic_and_counts_stored klass os fuel m0 :
  (length os ≤ fuel)%nat →
  ∃ self lp hd ns m,
    (self ← rb_linked_list_allocate klass; run_ops fuel self os;; mret self) m0
      = Ok self m ∧
    objs m !! self = Some (klass, lp) ∧
    heap m !! lp = Some (ListBlock (mkList (Some hd))) ∧
    chain (heap m) hd ns ∧
    NoDup ns.*1 ∧
    (∀ q, q ≠ NULL → reachable (heap m) hd q ↔ q ∈ ns.*1) ∧
    ns.*2 = stored os ∧
    length ns = stored_count os ∧
    ∃ m', linked_list_mark (S (stored_count os)) lp m = Ok tt m'.
Proof.
  intros Hfuel.
  destruct (rb_linked_list_allocate_spec klass m0) as (m1 & E1 & Hl1 & _).
  destruct (run_ops_spec fuel m1 _ _ _ [] os Hl1) as (m2 & ns & E2 & Hl2 & Hv & Hn);
    [cbn; lia|].
  pose proof Hl2 as (Hobj & hd & Hlp & Hch).
  exists (fresh_obj (objs m0)), (fresh_addr (heap m0)), hd, ns, m2.
  rewrite (bind_Ok _ _ _ _ _ E1). rewrite (bind_Ok _ _ _ _ _ E2).
  repeat split; try done.
  - by eapply chain_NoDup.
  - intros Hr. destruct (chain_reachable _ _ _ _ Hch Hr); done.
  - by eapply reachable_chain.
  - eexists. unfold stored_count. cbn in Hn. rewrite <- Hn.
    eapply linked_list_mark_spec; [done|lia].
Qed.

(** C9. [prepend v] followed by [shift] returns [v] and restores the memory
    exactly: the list is in the state it had before, whatever it held. *)
Theorem prepend_then_shift_roundtrip m self klass lp ns v :
  is_list m self klass lp ns →
  (rb_linked_list_prepend self v ≫= λ _, rb_linked_list_shift self) m = Ok v m.
Proof.
  intros (Hobj & hd & Hlp & Hch).
  pose proof (fresh_addr_None (heap m)) as Hfresh.
  pose proof (fresh_addr_not_NULL (heap m)) as Hn.
  assert (fresh_addr (heap m) ≠ lp) as Hne by (intros E; congruence).
  rewrite (bind_Ok _ _ _ _ _ (rb_linked_list_prepend_Ok m self klass lp hd v Hobj Hlp)).
  rewrite (rb_linked_list_shift_node_Ok _ self klass lp (fresh_addr (heap m)) hd v); cbn.
  - f_equal. destruct m as [h o g]. unfold set_heap. cbn in *. f_equal.
    rewrite delete_insert_ne by done. rewrite delete_insert_id by done.
    rewrite insert_insert_eq. by apply insert_id.
  - done.
  - by rewrite lookup_insert_eq.
  - done.
  - rewrite lookup_insert_ne by done. by rewrite lookup_insert_eq.
Qed.

(** C10. The size callback returns [sizeof(linkedListType)] for every data
    pointer and every memory, and reads and changes nothing; in particular
    it returns the same size for a list before and after any number of nodes
    are appended to it. *)
Theorem linked_list_memsize_is_constant fuel m self klass lp ns vs :
  is_list m self klass lp ns → (length ns + length vs ≤ fuel)%nat →
  (∀ p0 m0, linked_list_memsize p0 m0 = Ok sizeof_linkedListType m0) ∧
  ∃ m' ns',
    appends fuel self vs m = Ok tt m' ∧
    is_list m' self klass lp (ns ++ ns') ∧ length ns' = length vs ∧
    linked_list_memsize lp m = Ok sizeof_linkedListType m ∧
    linked_list_memsize lp m' = Ok sizeof_linkedListType m'.
Proof.
  intros Hl Hfuel. split; [done|].
  destruct (appends_spec fuel m self klass lp ns vs Hl Hfuel) as (m' & ns' & E & Hl' & Hv).
  exists m', ns'. split; [done|]. split; [done|]. split; [|done].
  rewrite <- Hv. by rewrite length_fmap.
Qed.

(** * Further properties *)

(** ** The frame of a list *)

Lemma lookup_frame_in h lp ns a : a ∈ blocks lp ns → frame h lp ns !! a = None.
Proof. apply lookup_foldr_delete. Qed.

Lemma lookup_frame_out h lp ns a : a ∉ blocks lp ns → frame h lp ns !! a = h !! a.
Proof. apply lookup_foldr_delete_not_elem_of. Qed.

(** Two heaps have the same frame when they agree outside the blocks, and
    a block of only one of the two lists is free in the other heap. *)
Lemma frame_eq h h' lp ns ns' :
  (∀ a, a ∉ blocks lp ns → a ∉ blocks lp ns' → h' !! a = h !! a) →
  (∀ a, a ∈ blocks lp ns → a ∉ blocks lp ns' → h' !! a = None) →
  (∀ a, a ∉ blocks lp ns → a ∈ blocks lp ns' → h !! a = None) →
  frame h' lp ns' = frame h lp ns.
Proof.
  intros Hout Hold Hnew. apply map_eq. intros a.
  destruct (decide (a ∈ blocks lp ns)) as [Hin|Hnin];
    destruct (decide (a ∈ blocks lp ns')) as [Hin'|Hnin'].
  - by rewrite !lookup_frame_in.
  - rewrite (lookup_frame_in h) by done. rewrite lookup_frame_out by done. eauto.
  - rewrite (lookup_frame_in h') by done. rewrite lookup_frame_out by done.
    symmetry. eauto.
  - rewrite !lookup_frame_out by done. eauto.
Qed.

Lemma elem_of_blocks lp ns a : a ∈ blocks lp ns ↔ a = lp ∨ a ∈ ns.*1.
Proof. unfold blocks. apply elem_of_cons. Qed.

Lemma is_list_blocks_allocated m self klass lp ns a :
  is_list m self klass lp ns → a ∈ blocks lp ns → is_Some (heap m !! a).
Proof.
  intros (_ & hd & Hlp & Hch) Hin. apply elem_of_blocks in Hin as [->|Hin].
  - by rewrite Hlp.
  - destruct (chain_lookup _ _ _ _ Hch Hin) as (_ & q & v & Hl). by rewrite Hl.
Qed.

Lemma is_list_fresh_not_block m self klass lp ns :
  is_list m self klass lp ns → fresh_addr (heap m) ∉ blocks lp ns.
Proof.
  intros Hl Hin. destruct (is_list_blocks_allocated _ _ _ _ _ _ Hl Hin) as [b Hb].
  by rewrite fresh_addr_None in Hb.
Qed.

(** A chain only depends on the blocks of its nodes. *)
Lemma chain_ext h h' p ns :
  chain h p ns → (∀ a, a ∈ ns.*1 → h' !! a = h !! a) → chain h' p ns.
Proof.
  revert p. induction ns as [|[a v] ns IH]; intros p; cbn; [done|].
  intros (-> & Ha & q & Hq & Hch) Hext. repeat split; [done|]. exists q. split.
  - rewrite Hext; [done|]. apply list_elem_of_here.
  - apply IH; [done|]. intros b Hb. apply Hext. by apply list_elem_of_further.
Qed.

Lemma is_list_ext m m' self klass lp ns :
  is_list m self klass lp ns → objs m' !! self = objs m !! self →
  (∀ a, a ∈ blocks lp ns → heap m' !! a = heap m !! a) →
  is_list m' self klass lp ns.
Proof.
  intros (Hobj & hd & Hlp & Hch) Ho Hext. split; [by rewrite Ho|]. exists hd. split.
  - rewrite Hext; [done|]. apply list_elem_of_here.
  - eapply chain_ext; [done|]. intros a Ha. apply Hext.
    by apply list_elem_of_further.
Qed.

Lemma chain_head_addr h p ns : chain h p ns → p = head_addr ns.
Proof. destruct ns as [|[a v] ns]; cbn; [done|]. by intros (-> & _). Qed.

(** The block of each node of a chain is determined by the chain. *)
Lemma chain_block h p ns1 a v ns2 :
  chain h p (ns1 ++ (a, v) :: ns2) →
  h !! a = Some (NodeBlock (mkNode (Some (head_addr ns2)) (Some v))).
Proof.
  revert p. induction ns1 as [|[c u] ns1 IH]; intros p; cbn.
  - intros (_ & _ & q & Hq & Hch). by rewrite <- (chain_head_addr _ _ _ Hch).
  - intros (_ & _ & q & _ & Hch). eauto.
Qed.

(** A list and its frame determine the heap. *)
Lemma heap_determined m m' self klass lp ns :
  is_list m self klass lp ns → is_list m' self klass lp ns →
  frame (heap m') lp ns = frame (heap m) lp ns →
  heap m' = heap m.
Proof.
  intros (_ & hd & Hlp & Hch) (_ & hd' & Hlp' & Hch') Hf.
  apply map_eq. intros a. destruct (decide (a ∈ blocks lp ns)) as [Hin|Hnin].
  - apply elem_of_blocks in Hin as [->|Hin].
    + rewrite Hlp, Hlp'.
      by rewrite (chain_head_addr _ _ _ Hch), (chain_head_addr _ _ _ Hch').
    + apply list_elem_of_fmap in Hin as ([b v] & -> & Hin).
      apply list_elem_of_split in Hin as (ns1 & ns2 & ->). cbn.
      by rewrite (chain_block _ _ _ _ _ _ Hch), (chain_block _ _ _ _ _ _ Hch').
  - rewrite <- (lookup_frame_out (heap m') lp ns a Hnin).
    rewrite <- (lookup_frame_out (heap m) lp ns a Hnin). by rewrite Hf.
Qed.

(** ** The heap each mutator leaves *)

Lemma rb_linked_list_append_Ok_nil fuel m self klass lp v :
  objs m !! self = Some (klass, lp) →
  heap m !! lp = Some (ListBlock (mkList (Some NULL))) →
  rb_linked_list_append fuel self v m =
    Ok self
       (set_heap
          (<[lp := ListBlock (mkList (Some (fresh_addr (heap m))))]>
             (<[fresh_addr (heap m) := NodeBlock (mkNode (Some NULL) (Some v))]> (heap m)))
          m).
Proof.
  intros Hobj Hlp.
  pose proof (fresh_addr_None (heap m)) as Hfresh.
  assert (fresh_addr (heap m) ≠ lp) as Hne by (intros E; congruence).
  unfold rb_linked_list_append, TypedData_Get_Struct, load_head, mbind, M_bind.
  rewrite Hobj, Hlp. rewrite decide_True by done.
  rewrite new_c_node_value_Ok. unfold store_head, mret, M_ret. cbn.
  rewrite lookup_insert_ne by done. by rewrite Hlp.
Qed.

Lemma rb_linked_list_append_Ok_snoc fuel m self klass lp ns a w v :
  is_list m self klass lp (ns ++ [(a, w)]) → (length ns < fuel)%nat →
  rb_linked_list_append fuel self v m =
    Ok self
       (set_heap
          (<[a := NodeBlock (mkNode (Some (fresh_addr (heap m))) (Some w))]>
             (<[fresh_addr (heap m) := NodeBlock (mkNode (Some NULL) (Some v))]> (heap m)))
          m).
Proof.
  intros (Hobj & hd & Hlp & Hch) Hfuel.
  pose proof (fresh_addr_None (heap m)) as Hfresh.
  pose proof (chain_last _ _ _ _ _ Hch) as Hq.
  assert (a ≠ fresh_addr (heap m)) as Hane by (intros ->; congruence).
  unfold rb_linked_list_append, TypedData_Get_Struct, load_head, mbind, M_bind.
  rewrite Hobj, Hlp.
  rewrite decide_False by (destruct ns as [|[??]?]; eapply chain_head_not_NULL, Hch).
  rewrite (rb_linked_list_append_loop_Ok fuel m hd ns a w) by done.
  rewrite new_c_node_value_Ok. unfold store_next, mret, M_ret. cbn.
  rewrite lookup_insert_ne by done. by rewrite Hq.
Qed.

(** Changing one block of a list and adding a new block to it keeps the
    frame. *)
Lemma frame_grow h lp ns ns' x bx n bn :
  x ∈ blocks lp ns → h !! n = None →
  (∀ a, a ∈ blocks lp ns' ↔ a = n ∨ a ∈ blocks lp ns) →
  frame (<[x := bx]> (<[n := bn]> h)) lp ns' = frame h lp ns.
Proof.
  intros Hx Hn Hnew. apply frame_eq.
  - intros a Ha Ha'. rewrite !lookup_insert_ne; [done| |].
    + intros <-. apply Ha', Hnew. by left.
    + by intros <-.
  - intros a Ha Ha'. exfalso. apply Ha', Hnew. by right.
  - intros a Ha Ha'. apply Hnew in Ha' as [->|Ha']; done.
Qed.

Lemma rb_linked_list_append_frame fuel m self klass lp ns v :
  is_list m self klass lp ns → (length ns ≤ fuel)%nat →
  ∃ m', rb_linked_list_append fuel self v m = Ok self m' ∧
        is_list m' self klass lp (ns ++ [(fresh_addr (heap m), v)]) ∧
        frame (heap m') lp (ns ++ [(fresh_addr (heap m), v)]) = frame (heap m) lp ns ∧
        objs m' = objs m ∧ gc_marks m' = gc_marks m.
Proof.
  intros Hl Hfuel.
  destruct (rb_linked_list_append_spec fuel m self klass lp ns v Hl Hfuel)
    as (m' & E & Hl' & Ho & Hg).
  exists m'. split; [done|]. split; [done|]. split; [|done].
  assert (∀ a, a ∈ blocks lp (ns ++ [(fresh_addr (heap m), v)]) ↔
               a = fresh_addr (heap m) ∨ a ∈ blocks lp ns) as Hnew.
  { intros a. rewrite !elem_of_blocks, fmap_app, elem_of_app. cbn.
    rewrite elem_of_cons, elem_of_nil.
    split; [intros [?|[?|[?|[]]]]|intros [?|[?|?]]]; eauto. }
  pose proof Hl as (Hobj & hd & Hlp & Hch).
  destruct ns as [|[a w] ns0 _] using rev_ind.
  - cbn in Hch. subst hd.
    rewrite (rb_linked_list_append_Ok_nil fuel m self klass lp v Hobj Hlp) in E.
    injection E as <-. cbn [heap set_heap].
    apply frame_grow; [apply elem_of_blocks; by left|apply fresh_addr_None|done].
  - rewrite length_app in Hfuel. cbn in Hfuel.
    rewrite (rb_linked_list_append_Ok_snoc fuel m self klass lp ns0 a w v Hl) in E by lia.
    injection E as <-. cbn [heap set_heap].
    apply frame_grow; [|apply fresh_addr_None|done].
    apply elem_of_blocks. right. apply last_addr_elem.
Qed.

Lemma rb_linked_list_prepend_frame m self klass lp ns v :
  is_list m self klass lp ns →
  ∃ m', rb_linked_list_prepend self v m = Ok self m' ∧
        is_list m' self klass lp ((fresh_addr (heap m), v) :: ns) ∧
        frame (heap m') lp ((fresh_addr (heap m), v) :: ns) = frame (heap m) lp ns ∧
        objs m' = objs m ∧ gc_marks m' = gc_marks m.
Proof.
  intros Hl.
  destruct (rb_linked_list_prepend_spec m self klass lp ns v Hl) as (m' & E & Hl' & Ho & Hg).
  exists m'. split; [done|]. split; [done|]. split; [|done].
  pose proof Hl as (Hobj & hd & Hlp & Hch).
  rewrite (rb_linked_list_prepend_Ok m self klass lp hd v Hobj Hlp) in E.
  injection E as <-. cbn [heap set_heap].
  apply frame_grow; [apply elem_of_blocks; by left|apply fresh_addr_None|].
  intros a. rewrite !elem_of_blocks. cbn. rewrite elem_of_cons.
  split; [intros [?|[?|?]]|intros [?|[?|?]]]; eauto.
Qed.

Lemma rb_linked_list_shift_frame m self klass lp a v ns :
  is_list m self klass lp ((a, v) :: ns) →
  ∃ m', rb_linked_list_shift self m = Ok v m' ∧
        is_list m' self klass lp ns ∧
        frame (heap m') lp ns = frame (heap m) lp ((a, v) :: ns) ∧
        heap m' !! a = None ∧ (a ∉ blocks lp ns) ∧
        objs m' = objs m ∧ gc_marks m' = gc_marks m.
Proof.
  intros Hl.
  destruct (rb_linked_list_shift_cons_spec m self klass lp a v ns Hl)
    as (m' & E & Hl' & Hfree & Ho & Hg).
  pose proof Hl as (Hobj & hd & Hlp & Hch).
  pose proof (chain_NoDup _ _ _ Hch) as Hnd.
  cbn in Hch. destruct Hch as (-> & Ha & q & Hq & Hch).
  cbn in Hnd. apply NoDup_cons in Hnd as [Hnin _].
  assert (a ≠ lp) as Hne by (intros ->; congruence).
  assert (a ∉ blocks lp ns) as Hout.
  { intros Hin. apply elem_of_blocks in Hin as [?|?]; done. }
  exists m'. split; [done|]. split; [done|]. split; [|done].
  rewrite (rb_linked_list_shift_node_Ok m self klass lp a q v Hobj Hlp Ha Hq) in E.
  injection E as <-. cbn [heap set_heap]. apply frame_eq.
  - intros b Hb Hb'. rewrite lookup_insert_ne.
    + rewrite lookup_delete_ne; [done|]. intros <-. apply Hb.
      apply elem_of_blocks. right. apply list_elem_of_here.
    + intros <-. apply Hb, elem_of_blocks. by left.
  - intros b Hb Hb'. apply elem_of_blocks in Hb as [->|Hb].
    + exfalso. apply Hb', elem_of_blocks. by left.
    + cbn in Hb. apply elem_of_cons in Hb as [->|Hb].
      * rewrite lookup_insert_ne by done. apply lookup_delete_eq.
      * exfalso. apply Hb', elem_of_blocks. by right.
  - intros b Hb Hb'. exfalso. apply Hb.
    apply elem_of_blocks in Hb' as [->|Hb']; apply elem_of_blocks; [by left|].
    right. cbn. by apply list_elem_of_further.
Qed.

Lemma rb_linked_list_allocate_Ok klass m :
  rb_linked_list_allocate klass m =
    Ok (fresh_obj (objs m))
       (Mem (<[fresh_addr (heap m) := ListBlock (mkList (Some NULL))]> (heap m))
            (<[fresh_obj (objs m) := (klass, fresh_addr (heap m))]> (objs m))
            (gc_marks m)).
Proof.
  unfold rb_linked_list_allocate, malloc, TypedData_Wrap_Struct, store_head,
    mbind, M_bind, mret, M_ret.
  cbn. rewrite lookup_insert_eq. cbn. unfold set_heap. cbn.
  by rewrite insert_insert_eq.
Qed.

Lemma is_list_NoDup_blocks m self klass lp ns :
  is_list m self klass lp ns → NoDup (blocks lp ns).
Proof.
  intros (_ & hd & Hlp & Hch). apply NoDup_cons. split.
  - eapply chain_not_list; [exact Hch|exact Hlp].
  - eapply chain_NoDup, Hch.
Qed.

Lemma size_foldr_delete (h : gmap Z block) js :
  NoDup js → (∀ j, j ∈ js → is_Some (h !! j)) →
  size h = (size (foldr delete h js) + length js)%nat.
Proof.
  induction js as [|j js IH]; intros Hnd Hall; cbn; [lia|].
  apply NoDup_cons in Hnd as [Hnin Hnd].
  rewrite IH; [|done|intros i Hi; apply Hall; by apply list_elem_of_further].
  assert (is_Some (foldr delete h js !! j)) as Hj.
  { rewrite lookup_foldr_delete_not_elem_of by done. apply Hall, list_elem_of_here. }
  rewrite (map_size_delete_Some j) by done.
  assert (size (foldr delete h js) ≠ 0%nat) as Hnz.
  { destruct Hj as [b Hb]. eapply map_size_ne_0_lookup_2. by rewrite Hb. }
  lia.
Qed.

(** The live blocks are those of the frame, the list struct and the nodes. *)
Lemma size_heap_frame m self klass lp ns :
  is_list m self klass lp ns →
  size (heap m) = (size (frame (heap m) lp ns) + S (length ns))%nat.
Proof.
  intros Hl. unfold frame.
  rewrite (size_foldr_delete (heap m) (blocks lp ns)).
  - unfold blocks. cbn. by rewrite length_fmap.
  - by eapply is_list_NoDup_blocks.
  - intros j Hj. by eapply is_list_blocks_allocated.
Qed.

(** ** Sequences of calls and the frame *)

Lemma run_ops_frame fuel m self klass lp ns os :
  is_list m self klass lp ns → (length ns + length os ≤ fuel)%nat →
  ∃ m' ns', run_ops fuel self os m = Ok tt m' ∧
            is_list m' self klass lp ns' ∧
            ns'.*2 = fold_left stored_step os ns.*2 ∧
            length ns' = fold_left stored_count_step os (length ns) ∧
            frame (heap m') lp ns' = frame (heap m) lp ns ∧
            objs m' = objs m ∧ gc_marks m' = gc_marks m.
Proof.
  revert m ns. induction os as [|o os IH]; intros m ns Hl Hfuel;
    cbn [run_ops fold_left length] in *.
  - by exists m, ns.
  - destruct o as [v|v|].
    + destruct (rb_linked_list_append_frame fuel m self klass lp ns v Hl)
        as (m1 & E1 & Hl1 & Hf1 & Ho1 & Hg1); [lia|].
      destruct (IH m1 _ Hl1) as (m2 & ns2 & E2 & Hl2 & Hv & Hn & Hf2 & Ho2 & Hg2).
      { rewrite length_app. cbn. lia. }
      exists m2, ns2. unfold run_op. rewrite bind_assoc.
      rewrite (bind_Ok _ _ _ _ _ E1). cbn. split; [done|]. split; [done|].
      rewrite Hv, Hn, fmap_app, length_app, Hf2, Hf1, Ho2, Ho1, Hg2, Hg1. cbn.
      by replace (length ns + 1)%nat with (S (length ns)) by lia.
    + destruct (rb_linked_list_prepend_frame m self klass lp ns v Hl)
        as (m1 & E1 & Hl1 & Hf1 & Ho1 & Hg1).
      destruct (IH m1 _ Hl1) as (m2 & ns2 & E2 & Hl2 & Hv & Hn & Hf2 & Ho2 & Hg2).
      { cbn. lia. }
      exists m2, ns2. unfold run_op. rewrite bind_assoc.
      rewrite (bind_Ok _ _ _ _ _ E1). cbn.
      by rewrite Hv, Hn, Hf2, Hf1, Ho2, Ho1, Hg2, Hg1.
    + destruct ns as [|[a v] ns].
      * destruct (IH m [] Hl) as (m2 & ns2 & E2 & Hl2 & Hv & Hn & Hf2 & Ho2 & Hg2);
          [cbn; lia|].
        exists m2, ns2. unfold run_op. rewrite bind_assoc.
        rewrite (bind_Ok _ _ _ _ _ (rb_linked_list_shift_nil_spec m self klass lp Hl)).
        cbn. done.
      * destruct (rb_linked_list_shift_frame m self klass lp a v ns Hl)
          as (m1 & E1 & Hl1 & Hf1 & _ & _ & Ho1 & Hg1).
        destruct (IH m1 _ Hl1) as (m2 & ns2 & E2 & Hl2 & Hv & Hn & Hf2 & Ho2 & Hg2);
          [cbn in *; lia|].
        exists m2, ns2. unfold run_op. rewrite bind_assoc.
        rewrite (bind_Ok _ _ _ _ _ E1). cbn.
        by rewrite Hv, Hn, Hf2, Hf1, Ho2, Ho1, Hg2, Hg1.
Qed.

(** ** Several lists *)

Lemma lists_ok_update m m' L self klass lp ns ns' :
  lists_ok m L → L !! self = Some (klass, lp, ns) →
  is_list m' self klass lp ns' →
  frame (heap m') lp ns' = frame (heap m) lp ns →
  objs m' = objs m →
  (∀ a, a ∈ blocks lp ns' → a ∈ blocks lp ns ∨ heap m !! a = None) →
  lists_ok m' (<[self := (klass, lp, ns')]> L).
Proof.
  intros [Hwf Hdisj] Hself Hl' Hf Ho Hnew.
  assert (∀ s k2 lp2 ns2 a, s ≠ self → L !! s = Some (k2, lp2, ns2) →
            a ∈ blocks lp2 ns2 → (a ∉ blocks lp ns) ∧ (a ∉ blocks lp ns')) as Hsep.
  { intros s k2 lp2 ns2 a Hne Hs Ha. split.
    - eapply (Hdisj s self); eauto.
    - intros Hin. destruct (Hnew a Hin) as [Hold|Hnone].
      + by eapply (Hdisj s self k2 klass lp2 lp ns2 ns a).
      + destruct (is_list_blocks_allocated m s k2 lp2 ns2 a (Hwf _ _ _ _ Hs) Ha) as [b Hb].
        congruence. }
  split.
  - intros s k2 lp2 ns2 Hs. destruct (decide (s = self)) as [->|Hne].
    + rewrite lookup_insert_eq in Hs. by simplify_eq.
    + rewrite lookup_insert_ne in Hs by done.
      eapply is_list_ext; [by apply Hwf|by rewrite Ho|].
      intros a Ha. destruct (Hsep s k2 lp2 ns2 a Hne Hs Ha) as [Hout Hout'].
      rewrite <- (lookup_frame_out (heap m') lp ns' a Hout').
      rewrite <- (lookup_frame_out (heap m) lp ns a Hout). by rewrite Hf.
  - intros s1 s2 k1 k2 lp1 lp2 ns1 ns2 a Hne H1 H2 Ha.
    destruct (decide (s1 = self)) as [->|Hne1]; destruct (decide (s2 = self)) as [->|Hne2].
    + done.
    + rewrite lookup_insert_eq in H1. rewrite lookup_insert_ne in H2 by done.
      simplify_eq. intros Ha2.
      by destruct (Hsep s2 k2 lp2 ns2 a Hne2 H2 Ha2) as [_ Hout'].
    + rewrite lookup_insert_ne in H1 by done. rewrite lookup_insert_eq in H2.
      simplify_eq. by destruct (Hsep s1 k1 lp1 ns1 a Hne1 H1 Ha) as [_ Hout'].
    + rewrite lookup_insert_ne in H1 by done. rewrite lookup_insert_ne in H2 by done.
      by eapply (Hdisj s1 s2).
Qed.

Lemma prepends_frame m self klass lp ns vs :
  is_list m self klass lp ns →
  ∃ m' ns', prepends self vs m = Ok tt m' ∧
            is_list m' self klass lp (ns' ++ ns) ∧ ns'.*2 = rev vs ∧
            frame (heap m') lp (ns' ++ ns) = frame (heap m) lp ns ∧
            objs m' = objs m ∧ gc_marks m' = gc_marks m.
Proof.
  revert m ns. induction vs as [|v vs IH]; intros m ns Hl; cbn.
  - by exists m, [].
  - destruct (rb_linked_list_prepend_frame m self klass lp ns v Hl)
      as (m1 & E1 & Hl1 & Hf1 & Ho1 & Hg1).
    destruct (IH m1 _ Hl1) as (m2 & ns2 & E2 & Hl2 & Hv & Hf2 & Ho2 & Hg2).
    exists m2, (ns2 ++ [(fresh_addr (heap m), v)]).
    rewrite (bind_Ok _ _ _ _ _ E1). split; [done|].
    rewrite <- app_assoc. cbn. split; [done|].
    rewrite fmap_app. cbn. by rewrite Hv, Hf2, Hf1, Ho2, Ho1, Hg2, Hg1.
Qed.

(** Shifting out the first nodes of a list. *)
Lemma shifts_prefix_frame m self klass lp ns1 ns2 :
  is_list m self klass lp (ns1 ++ ns2) →
  ∃ m', shifts self (length ns1) m = Ok ns1.*2 m' ∧
        is_list m' self klass lp ns2 ∧
        frame (heap m') lp ns2 = frame (heap m) lp (ns1 ++ ns2) ∧
        objs m' = objs m ∧ gc_marks m' = gc_marks m.
Proof.
  revert m. induction ns1 as [|[a v] ns1 IH]; intros m Hl; cbn.
  - by exists m.
  - destruct (rb_linked_list_shift_frame m self klass lp a v (ns1 ++ ns2) Hl)
      as (m1 & E1 & Hl1 & Hf1 & _ & _ & Ho1 & Hg1).
    destruct (IH m1 Hl1) as (m2 & E2 & Hl2 & Hf2 & Ho2 & Hg2).
    exists m2. rewrite (bind_Ok _ _ _ _ _ E1). rewrite (bind_Ok _ _ _ _ _ E2).
    by rewrite Hf2, Hf1, Ho2, Ho1, Hg2, Hg1.
Qed.

Lemma mem_eq m m' :
  heap m' = heap m → objs m' = objs m → gc_marks m' = gc_marks m → m' = m.
Proof. destruct m, m'. cbn. by intros -> -> ->. Qed.


Lemma fmap_snd_nil (ns : list (Z * Z)) : ns.*2 = [] → ns = [].
Proof. by destruct ns. Qed.

(** Every node of a chain is a live block with both fields stored. *)
Lemma chain_reachable_live h p ns q :
  chain h p ns → reachable h p q → q ≠ NULL →
  ∃ nx v, h !! q = Some (NodeBlock (mkNode (Some nx) (Some v))).
Proof.
  intros Hch Hr Hq. destruct (chain_reachable _ _ _ _ Hch Hr) as [?|Hin]; [done|].
  by destruct (chain_lookup _ _ _ _ Hch Hin) as (_ & nx & v & Hl); eauto.
Qed.

(** ** Properties beyond the claims *)

(** X1. [append], [prepend] and [shift] on a well-formed list return, leave
    a well-formed list, and touch no block but the list's own: the heap
    without the blocks of the list is the same before and after, and so are
    the table of objects and the collector's log. *)
Theorem mutators_touch_only_own_blocks fuel m self klass lp ns v :
  is_list m self klass lp ns → (length ns ≤ fuel)%nat →
  (∃ m' ns',
     rb_linked_list_append fuel self v m = Ok self m' ∧
     is_list m' self klass lp ns' ∧ ns'.*2 = ns.*2 ++ [v] ∧
     frame (heap m') lp ns' = frame (heap m) lp ns ∧
     objs m' = objs m ∧ gc_marks m' = gc_marks m) ∧
  (∃ m' ns',
     rb_linked_list_prepend self v m = Ok self m' ∧
     is_list m' self klass lp ns' ∧ ns'.*2 = v :: ns.*2 ∧
     frame (heap m') lp ns' = frame (heap m) lp ns ∧
     objs m' = objs m ∧ gc_marks m' = gc_marks m) ∧
  (∃ m' ns',
     rb_linked_list_shift self m = Ok (hd Qnil ns.*2) m' ∧
     is_list m' self klass lp ns' ∧ ns'.*2 = tail ns.*2 ∧
     frame (heap m') lp ns' = frame (heap m) lp ns ∧
     objs m' = objs m ∧ gc_marks m' = gc_marks m).
Proof.
  intros Hl Hfuel. split; [|split].
  - destruct (rb_linked_list_append_frame fuel m self klass lp ns v Hl Hfuel)
      as (m' & E & Hl' & Hf & Ho & Hg).
    exists m', (ns ++ [(fresh_addr (heap m), v)]).
    by rewrite fmap_app.
  - destruct (rb_linked_list_prepend_frame m self klass lp ns v Hl)
      as (m' & E & Hl' & Hf & Ho & Hg).
    by exists m', ((fresh_addr (heap m), v) :: ns).
  - destruct ns as [|[a w] ns].
    + exists m, []. by rewrite (rb_linked_list_shift_nil_spec m self klass lp Hl).
    + destruct (rb_linked_list_shift_frame m self klass lp a w ns Hl)
        as (m' & E & Hl' & Hf & _ & _ & Ho & Hg).
      by exists m', ns.
Qed.

(** X2. Lists that share no block stay independent: a call of [append],
    [prepend] or [shift] on one list of a memory holding several changes
    that list as the call says and leaves every other list as it was, still
    sharing no block with any other. *)
Theorem lists_stay_independent fuel m L self klass lp ns v :
  lists_ok m L → L !! self = Some (klass, lp, ns) → (length ns ≤ fuel)%nat →
  (∃ m' a,
     rb_linked_list_append fuel self v m = Ok self m' ∧
     lists_ok m' (<[self := (klass, lp, ns ++ [(a, v)])]> L)) ∧
  (∃ m' a,
     rb_linked_list_prepend self v m = Ok self m' ∧
     lists_ok m' (<[self := (klass, lp, (a, v) :: ns)]> L)) ∧
  (∃ m',
     rb_linked_list_shift self m = Ok (hd Qnil ns.*2) m' ∧
     lists_ok m' (<[self := (klass, lp, tail ns)]> L)).
Proof.
  intros HL Hself Hfuel. pose proof (proj1 HL _ _ _ _ Hself) as Hl.
  split; [|split].
  - destruct (rb_linked_list_append_frame fuel m self klass lp ns v Hl Hfuel)
      as (m' & E & Hl' & Hf & Ho & Hg).
    exists m', (fresh_addr (heap m)). split; [done|].
    eapply lists_ok_update; try done.
    intros a. rewrite !elem_of_blocks, fmap_app, elem_of_app. cbn.
    rewrite elem_of_cons, elem_of_nil.
    intros [->|[?|[->|[]]]]; eauto using fresh_addr_None.
  - destruct (rb_linked_list_prepend_frame m self klass lp ns v Hl)
      as (m' & E & Hl' & Hf & Ho & Hg).
    exists m', (fresh_addr (heap m)). split; [done|].
    eapply lists_ok_update; try done.
    intros a. rewrite !elem_of_blocks. cbn. rewrite elem_of_cons.
    intros [->|[->|?]]; eauto using fresh_addr_None.
  - destruct ns as [|[a w] ns].
    + exists m. rewrite (rb_linked_list_shift_nil_spec m self klass lp Hl).
      split; [done|]. cbn. by rewrite insert_id.
    + destruct (rb_linked_list_shift_frame m self klass lp a w ns Hl)
        as (m' & E & Hl' & Hf & _ & _ & Ho & Hg).
      exists m'. split; [done|]. cbn.
      eapply lists_ok_update; try done.
      intros b. rewrite !elem_of_blocks. cbn. rewrite elem_of_cons.
      intros [->|?]; eauto.
Qed.

(** X3. [rb_linked_list_allocate] returns a handle that was no object
    before, for a new struct at an address that was free and is not NULL;
    the new list is empty, and the lists the memory already held are as they
    were and share no block with the new one. *)
Theorem allocate_adds_a_separate_list klass m L :
  lists_ok m L →
  ∃ self lp m',
    rb_linked_list_allocate klass m = Ok self m' ∧
    objs m !! self = None ∧ L !! self = None ∧
    heap m !! lp = None ∧ lp ≠ NULL ∧
    lists_ok m' (<[self := (klass, lp, [])]> L) ∧
    gc_marks m' = gc_marks m.
Proof.
  intros [Hwf Hdisj].
  pose proof (fresh_addr_None (heap m)) as Hfresh.
  pose proof (fresh_obj_None (objs m)) as Hobj.
  destruct (rb_linked_list_allocate_spec klass m) as (m' & E & Hl' & Hg).
  exists (fresh_obj (objs m)), (fresh_addr (heap m)), m'.
  assert (L !! fresh_obj (objs m) = None) as HL.
  { destruct (L !! fresh_obj (objs m)) as [[[k lp] ns]|] eqn:EL; [|done].
    destruct (Hwf _ _ _ _ EL) as (Ho & _). congruence. }
  split; [done|]. split; [done|]. split; [done|]. split; [done|].
  split; [apply fresh_addr_not_NULL|]. split; [|done].
  rewrite rb_linked_list_allocate_Ok in E. injection E as <-.
  assert (∀ s k lp ns a, L !! s = Some (k, lp, ns) → a ∈ blocks lp ns →
            a ≠ fresh_addr (heap m)) as Hold.
  { intros s k lp ns a Hs Ha ->.
    destruct (is_list_blocks_allocated m s k lp ns _ (Hwf _ _ _ _ Hs) Ha) as [b Hb].
    congruence. }
  split.
  - intros s k lp ns Hs. destruct (decide (s = fresh_obj (objs m))) as [->|Hne].
    + rewrite lookup_insert_eq in Hs. by simplify_eq.
    + rewrite lookup_insert_ne in Hs by done.
      eapply is_list_ext; [by apply Hwf|cbn; by rewrite lookup_insert_ne|].
      intros a Ha. cbn. rewrite lookup_insert_ne; [done|].
      intros <-. by eapply Hold.
  - intros s1 s2 k1 k2 lp1 lp2 ns1 ns2 a Hne H1 H2 Ha.
    destruct (decide (s1 = fresh_obj (objs m))) as [->|Hne1];
      destruct (decide (s2 = fresh_obj (objs m))) as [->|Hne2].
    + done.
    + rewrite lookup_insert_eq in H1. rewrite lookup_insert_ne in H2 by done.
      simplify_eq. apply elem_of_blocks in Ha as [->|Ha]; [|by apply elem_of_nil in Ha].
      intros Ha2. by eapply Hold.
    + rewrite lookup_insert_ne in H1 by done. rewrite lookup_insert_eq in H2.
      simplify_eq. intros Ha2.
      apply elem_of_blocks in Ha2 as [->|Ha2]; [|by apply elem_of_nil in Ha2].
      by eapply Hold.
    + rewrite lookup_insert_ne in H1 by done. rewrite lookup_insert_ne in H2 by done.
      by eapply (Hdisj s1 s2).
Qed.

(** X4. Any mix of calls on a new list, then a drain: after allocation and
    any sequence of [append], [prepend] and [shift] calls, the next shifts
    return the stored values, head first, and [Qnil] from then on; the list
    is empty afterwards. *)
Theorem mixed_calls_then_drain klass os k fuel m0 :
  (length os ≤ fuel)%nat →
  ∃ self lp m,
    (self ← rb_linked_list_allocate klass;
     run_ops fuel self os;;
     rs ← shifts self (stored_count os + k);
     mret (self, rs)) m0
    = Ok (self, stored os ++ replicate k Qnil) m ∧
    is_list m self klass lp [].
Proof.
  intros Hfuel.
  destruct (rb_linked_list_allocate_spec klass m0) as (m1 & E1 & Hl1 & _).
  destruct (run_ops_spec fuel m1 _ _ _ [] os Hl1) as (m2 & ns & E2 & Hl2 & Hv & Hn);
    [cbn; lia|].
  destruct (shifts_spec m2 _ _ _ ns k Hl2) as (m3 & E3 & Hl3).
  exists (fresh_obj (objs m0)), (fresh_addr (heap m0)), m3.
  rewrite (bind_Ok _ _ _ _ _ E1). rewrite (bind_Ok _ _ _ _ _ E2).
  unfold stored_count, stored. cbn in Hn, Hv. rewrite <- Hn, <- Hv.
  by rewrite (bind_Ok _ _ _ _ _ E3).
Qed.


(** X6. A stack discipline restores the memory: on any list, prepending
    [v1..vn] and then shifting [n] times returns [vn, ..., v1] and leaves the
    memory exactly as it was before the first [prepend]. *)
Theorem prepends_then_shifts_restore_memory m self klass lp ns vs :
  is_list m self klass lp ns →
  (prepends self vs ≫= λ _, shifts self (length vs)) m = Ok (rev vs) m.
Proof.
  intros Hl.
  destruct (prepends_frame m self klass lp ns vs Hl)
    as (m1 & ns1 & E1 & Hl1 & Hv & Hf1 & Ho1 & Hg1).
  destruct (shifts_prefix_frame m1 self klass lp ns1 ns Hl1)
    as (m2 & E2 & Hl2 & Hf2 & Ho2 & Hg2).
  rewrite (bind_Ok _ _ _ _ _ E1).
  assert (length vs = length ns1) as ->.
  { rewrite <- (length_fmap snd ns1), Hv. by rewrite length_rev. }
  rewrite E2, Hv. f_equal. apply mem_eq.
  - eapply heap_determined; [exact Hl|exact Hl2|]. by rewrite Hf2, Hf1.
  - by rewrite Ho2, Ho1.
  - by rewrite Hg2, Hg1.
Qed.

(** X7. A drained list holds on to nothing: when a sequence of [append],
    [prepend] and [shift] calls on an empty list leaves no value stored, the
    calls return and the memory is exactly what it was before them. *)
Theorem drained_list_restores_memory fuel m self klass lp os :
  is_list m self klass lp [] → (length os ≤ fuel)%nat →
  stored os = [] →
  run_ops fuel self os m = Ok tt m.
Proof.
  intros Hl Hfuel Hst.
  destruct (run_ops_frame fuel m self klass lp [] os Hl)
    as (m' & ns & E & Hl' & Hv & _ & Hf & Ho & Hg); [cbn; lia|].
  cbn in Hv. unfold stored in Hst. rewrite Hst in Hv.
  apply fmap_snd_nil in Hv as ->.
  rewrite E. f_equal. apply mem_eq; [|done..].
  by eapply heap_determined.
Qed.

(** X8. No block is lost through the calls: after allocation and any
    sequence of [append], [prepend] and [shift] calls, the heap without the
    blocks of the list is the heap before the allocation, the number of live
    blocks has grown by one (the struct) plus the number of values stored,
    and every node reachable from the head is a live block whose two fields
    were stored. *)
Theorem live_blocks_are_accounted klass os fuel m0 :
  (length os ≤ fuel)%nat →
  ∃ self lp ns m,
    (self ← rb_linked_list_allocate klass; run_ops fuel self os;; mret self) m0
      = Ok self m ∧
    is_list m self klass lp ns ∧ ns.*2 = stored os ∧
    frame (heap m) lp ns = heap m0 ∧
    size (heap m) = (size (heap m0) + 1 + stored_count os)%nat ∧
    objs m = <[self := (klass, lp)]> (objs m0) ∧
    ∀ q, reachable (heap m) (head_addr ns) q → q ≠ NULL →
         ∃ nx w, heap m !! q = Some (NodeBlock (mkNode (Some nx) (Some w))).
Proof.
  intros Hfuel.
  pose proof (rb_linked_list_allocate_Ok klass m0) as E1.
  destruct (rb_linked_list_allocate_spec klass m0) as (m1 & E1' & Hl1 & _).
  rewrite E1 in E1'. injection E1' as <-.
  destruct (run_ops_frame fuel _ _ _ _ [] os Hl1)
    as (m2 & ns & E2 & Hl2 & Hv & Hn & Hf & Ho & _); [cbn; lia|].
  cbn in Hv, Hn, Ho.
  assert (frame (heap m2) (fresh_addr (heap m0)) ns = heap m0) as Hf0.
  { rewrite Hf. unfold frame, blocks. cbn.
    apply delete_insert_id, fresh_addr_None. }
  exists (fresh_obj (objs m0)), (fresh_addr (heap m0)), ns, m2.
  rewrite (bind_Ok _ _ _ _ _ E1). rewrite (bind_Ok _ _ _ _ _ E2).
  split; [done|]. split; [done|]. split; [done|]. split; [done|].
  split; [|split; [done|]].
  - rewrite (size_heap_frame m2 _ _ _ ns Hl2), Hf0.
    unfold stored_count. rewrite <- Hn. lia.
  - intros q Hr Hq. destruct Hl2 as (_ & hd & _ & Hch).
    rewrite <- (chain_head_addr _ _ _ Hch) in Hr.
    by eapply chain_reachable_live.
Qed.

(** X9. What the free hook releases: run on a list built by allocation and
    any sequence of calls, [linked_list_free] returns and releases the list
    struct and nothing else; the live blocks left over are those of the heap
    before the allocation plus one node per value still stored, and the heap
    is back to what it was before the allocation exactly when the list was
    drained first. *)
Theorem free_releases_only_the_struct klass os fuel m0 :
  (length os ≤ fuel)%nat →
  ∃ self lp ns m m',
    (self ← rb_linked_list_allocate klass; run_ops fuel self os;; mret self) m0
      = Ok self m ∧
    is_list m self klass lp ns ∧
    linked_list_free lp m = Ok tt m' ∧
    heap m' = delete lp (heap m) ∧
    foldr delete (heap m') ns.*1 = heap m0 ∧
    size (heap m') = (size (heap m0) + stored_count os)%nat ∧
    (stored os = [] → heap m' = heap m0).
Proof.
  intros Hfuel.
  pose proof (rb_linked_list_allocate_Ok klass m0) as E1.
  destruct (rb_linked_list_allocate_spec klass m0) as (m1 & E1' & Hl1 & _).
  rewrite E1 in E1'. injection E1' as <-.
  destruct (run_ops_frame fuel _ _ _ _ [] os Hl1)
    as (m2 & ns & E2 & Hl2 & Hv & Hn & Hf & _); [cbn; lia|].
  cbn in Hv, Hn.
  assert (frame (heap m2) (fresh_addr (heap m0)) ns = heap m0) as Hf0.
  { rewrite Hf. unfold frame, blocks. cbn.
    apply delete_insert_id, fresh_addr_None. }
  pose proof Hl2 as (_ & hd & Hlp & _).
  exists (fresh_obj (objs m0)), (fresh_addr (heap m0)), ns, m2,
    (set_heap (delete (fresh_addr (heap m0)) (heap m2)) m2).
  rewrite (bind_Ok _ _ _ _ _ E1). rewrite (bind_Ok _ _ _ _ _ E2).
  split; [done|]. split; [done|]. split.
  { unfold linked_list_free, free.
    rewrite decide_False by apply fresh_addr_not_NULL. by rewrite Hlp. }
  split; [done|]. cbn [heap set_heap].
  assert (foldr delete (delete (fresh_addr (heap m0)) (heap m2)) ns.*1 = heap m0) as Hdel.
  { rewrite <- delete_foldr_delete. exact Hf0. }
  split; [done|]. split.
  - rewrite map_size_delete_Some by (by rewrite Hlp).
    rewrite (size_heap_frame m2 _ _ _ ns Hl2), Hf0.
    unfold stored_count. rewrite <- Hn. lia.
  - intros Hst. unfold stored in Hst. rewrite Hst in Hv.
    apply fmap_snd_nil in Hv as ->. exact Hdel.
Qed.

(** X10. On an empty list [append] and [prepend] are the same call: they
    return the same handle and leave the same memory. *)
Theorem append_on_empty_is_prepend fuel m self klass lp v :
  is_list m self klass lp [] →
  rb_linked_list_append fuel self v m = rb_linked_list_prepend self v m.
Proof.
  intros (Hobj & hd & Hlp & ->).
  rewrite (rb_linked_list_append_Ok_nil fuel m self klass lp v Hobj Hlp).
  by rewrite (rb_linked_list_prepend_Ok m self klass lp NULL v Hobj Hlp).
Qed.

(** X11. [new_c_node_value v] returns a node at an address that was free and
    is not NULL, with [next] NULL and [value] [v], and changes no other
    block; [new_c_node] alone stores [next] only, so that reading [value]
    from its node is a read of an indeterminate field. *)
Theorem new_c_node_value_makes_a_fresh_node v m :
  ∃ n m',
    new_c_node_value v m = Ok n m' ∧
    n ≠ NULL ∧ heap m !! n = None ∧
    heap m' !! n = Some (NodeBlock (mkNode (Some NULL) (Some v))) ∧
    (∀ a, a ≠ n → heap m' !! a = heap m !! a) ∧
    objs m' = objs m ∧ gc_marks m' = gc_marks m ∧
    (∃ m1, (new_c_node ≫= load_next) m = Ok NULL m1) ∧
    (new_c_node ≫= load_value) m = Fault.
Proof.
  exists (fresh_addr (heap m)). eexists. split; [apply new_c_node_value_Ok|].
  split; [apply fresh_addr_not_NULL|]. split; [apply fresh_addr_None|]. cbn.
  split; [by rewrite lookup_insert_eq|].
  split; [intros a Ha; by rewrite lookup_insert_ne|].
  split; [done|]. split; [done|].
  unfold new_c_node, malloc, store_next, load_next, load_value, mbind, M_bind,
    mret, M_ret. cbn. rewrite !lookup_insert_eq. cbn. rewrite !lookup_insert_eq.
  split; [by eexists|done].
Qed.

(** X12. [shift] on a list that holds a value returns the value of the head
    node, frees that node and no other block, and leaves no pointer to it:
    the freed address is not live, is no node of the remaining chain and is
    not reachable from the new head, and one block fewer is live. *)
Theorem shift_frees_the_head_node m self klass lp a v ns :
  is_list m self klass lp ((a, v) :: ns) →
  ∃ m',
    rb_linked_list_shift self m = Ok v m' ∧
    is_list m' self klass lp ns ∧
    heap m' !! lp = Some (ListBlock (mkList (Some (head_addr ns)))) ∧
    heap m' !! a = None ∧
    ¬ reachable (heap m') (head_addr ns) a ∧
    (∀ b, b ≠ a → b ≠ lp → heap m' !! b = heap m !! b) ∧
    size (heap m') = Nat.pred (size (heap m)).
Proof.
  intros Hl.
  pose proof Hl as (Hobj & hd & Hlp & Hch).
  pose proof (chain_NoDup _ _ _ Hch) as Hnd.
  cbn in Hch. destruct Hch as (-> & Ha & q & Hq & Hch).
  cbn in Hnd. apply NoDup_cons in Hnd as [Hnin _].
  assert (a ≠ lp) as Hne by (intros ->; congruence).
  destruct (rb_linked_list_shift_cons_spec m self klass lp a v ns Hl)
    as (m' & E & Hl' & Hfree & _).
  exists m'. split; [done|]. split; [done|].
  pose proof Hl' as (_ & hd' & Hlp' & Hch').
  rewrite (rb_linked_list_shift_node_Ok m self klass lp a q v Hobj Hlp Ha Hq) in E.
  injection E as <-. cbn [heap set_heap] in *.
  split; [by rewrite Hlp', (chain_head_addr _ _ _ Hch')|]. split; [done|]. split.
  - intros Hr. rewrite <- (chain_head_addr _ _ _ Hch') in Hr.
    destruct (chain_reachable _ _ _ _ Hch' Hr); done.
  - split.
    + intros b Hb Hb'. rewrite lookup_insert_ne by done. by rewrite lookup_delete_ne.
    + rewrite map_size_insert_Some.
      * apply map_size_delete_Some. by rewrite Hq.
      * rewrite lookup_delete_ne by done. by rewrite Hlp.
Qed.

(** ** Building [lists_ok] *)

Lemma lists_ok_singleton m self klass lp ns :
  is_list m self klass lp ns → lists_ok m (<[self := (klass, lp, ns)]> ∅).
Proof.
  intros Hl. split.
  - intros s k lp' ns' Hs. destruct (decide (s = self)) as [->|Hne].
    + rewrite lookup_insert_eq in Hs. by simplify_eq.
    + rewrite lookup_insert_ne in Hs by done. by rewrite lookup_empty in Hs.
  - intros s1 s2 k1 k2 lp1 lp2 ns1 ns2 a Hne H1 H2.
    destruct (decide (s1 = self)) as [->|Hne1].
    + rewrite lookup_insert_ne in H2 by done. by rewrite lookup_empty in H2.
    + rewrite lookup_insert_ne in H1 by done. by rewrite lookup_empty in H1.
Qed.

Lemma lists_ok_two m s1 k1 lp1 ns1 s2 k2 lp2 ns2 :
  s1 ≠ s2 →
  is_list m s1 k1 lp1 ns1 → is_list m s2 k2 lp2 ns2 →
  Forall (λ a, a ∉ blocks lp2 ns2) (blocks lp1 ns1) →
  lists_ok m (<[s1 := (k1, lp1, ns1)]> (<[s2 := (k2, lp2, ns2)]> ∅)).
Proof.
  intros Hne Hl1 Hl2 Hd. rewrite Forall_forall in Hd. split.
  - intros s k lp ns Hs. destruct (decide (s = s1)) as [->|Hn1].
    + rewrite lookup_insert_eq in Hs. by simplify_eq.
    + rewrite lookup_insert_ne in Hs by done.
      destruct (decide (s = s2)) as [->|Hn2].
      * rewrite lookup_insert_eq in Hs. by simplify_eq.
      * rewrite lookup_insert_ne in Hs by done. by rewrite lookup_empty in Hs.
  - assert (∀ s k lp ns,
      (<[s1 := (k1, lp1, ns1)]> (<[s2 := (k2, lp2, ns2)]> ∅) : gmap Z _) !! s
        = Some (k, lp, ns) →
      (s = s1 ∧ lp = lp1 ∧ ns = ns1) ∨ (s = s2 ∧ lp = lp2 ∧ ns = ns2)) as Hcase.
    { intros s k lp ns Hs. destruct (decide (s = s1)) as [->|Hn1].
      - rewrite lookup_insert_eq in Hs. simplify_eq. by left.
      - rewrite lookup_insert_ne in Hs by done.
        destruct (decide (s = s2)) as [->|Hn2].
        + rewrite lookup_insert_eq in Hs. simplify_eq. by right.
        + rewrite lookup_insert_ne in Hs by done. by rewrite lookup_empty in Hs. }
    intros t1 t2 j1 j2 l1 l2 n1 n2 a Hnt H1 H2 Ha.
    destruct (Hcase _ _ _ _ H1) as [(-> & -> & ->)|(-> & -> & ->)];
      destruct (Hcase _ _ _ _ H2) as [(-> & -> & ->)|(-> & -> & ->)]; try done.
    + by apply Hd.
    + intros Ha2. by apply (Hd a Ha2).
Qed.

(** ** Hosts that do not render as [renders_at] asks *)

(** On the list that holds itself the rendering of the stored value is a
    call of [rb_linked_list_inspect] on the same list: no bound on the loops
    and on the nesting of the calls is enough for it to return. *)
Lemma bind_OutOfFuel {A B} (c : M A) (f : A → M B) m :
  c m = OutOfFuel → (c ≫= f) m = OutOfFuel.
Proof. intros H. unfold mbind, M_bind. by rewrite H. Qed.

Lemma rb_linked_list_inspect_self_mem rb_inspect fuel :
  rb_inspect 1 self_mem = OutOfFuel →
  rb_linked_list_inspect rb_inspect fuel 1 self_mem = OutOfFuel.
Proof.
  intros H. destruct fuel as [|fuel]; [reflexivity|].
  assert (TypedData_Get_Struct 1 self_mem = Ok 1 self_mem) as E1 by reflexivity.
  assert (load_head 1 self_mem = Ok 2 self_mem) as E2 by reflexivity.
  assert (rb_class_of 1 self_mem = Ok sample_klass self_mem) as E3 by reflexivity.
  assert (load_value 2 self_mem = Ok 1 self_mem) as E4 by reflexivity.
  unfold rb_linked_list_inspect.
  rewrite (bind_Ok _ _ _ _ _ E1). rewrite (bind_Ok _ _ _ _ _ E2).
  rewrite (bind_Ok _ _ _ _ _ E3). apply bind_OutOfFuel.
  cbn [rb_linked_list_inspect_loop].
  rewrite decide_False by (unfold NULL; lia).
  rewrite (bind_Ok _ _ _ _ _ E4). by apply bind_OutOfFuel.
Qed.

Lemma ruby_inspect_self_never_returns fuel depth fuel' :
  rb_linked_list_inspect (ruby_inspect fuel depth) fuel' 1 self_mem = OutOfFuel.
Proof.
  revert fuel'. induction depth as [|depth IH]; intros fuel';
    apply rb_linked_list_inspect_self_mem; [reflexivity|].
  change (ruby_inspect fuel (S depth) 1 self_mem)
    with (rb_linked_list_inspect (ruby_inspect fuel depth) fuel 1 self_mem).
  apply IH.
Qed.

End Host.

(** * Concrete runs *)

Lemma new_list_mem_allocated :
  rb_linked_list_allocate sample_klass empty_mem = Ok 1 new_list_mem.
Proof. vm_compute. reflexivity. Qed.

Lemma sample_mem_appended :
  (rb_linked_list_allocate sample_klass ≫= λ self,
   appends 3 self [INT2FIX 1; INT2FIX 2; INT2FIX 3] ≫= λ _, mret self) empty_mem
  = Ok 1 sample_mem.
Proof. vm_compute. reflexivity. Qed.

Lemma mixed_mem_appended :
  (rb_linked_list_allocate sample_klass ≫= λ self,
   appends 3 self [INT2FIX 1; RUBY_Qfalse; RUBY_Qnil] ≫= λ _, mret self) empty_mem
  = Ok 1 mixed_mem.
Proof. vm_compute. reflexivity. Qed.

Lemma sample_mem_shifted :
  shifts RUBY_Qnil 1 5 sample_mem
  = Ok [INT2FIX 1; INT2FIX 2; INT2FIX 3; RUBY_Qnil; RUBY_Qnil] new_list_mem.
Proof. vm_compute. reflexivity. Qed.

Lemma is_list_new_list_mem : is_list new_list_mem 1 sample_klass 1 [].
Proof. solve_is_list. Defined.

Lemma is_list_sample_mem :
  is_list sample_mem 1 sample_klass 1 [(2, INT2FIX 1); (3, INT2FIX 2); (4, INT2FIX 3)].
Proof. solve_is_list. Defined.

Lemma is_list_mixed_mem :
  is_list mixed_mem 1 sample_klass 1 [(2, INT2FIX 1); (3, RUBY_Qfalse); (4, RUBY_Qnil)].
Proof. solve_is_list. Defined.

(** The runs below apply the theorems to these memories, with Ruby's [Qnil]
    and the concrete host. *)

Lemma append_then_shift_is_fifo_run :
  (length [INT2FIX 1; INT2FIX 2; INT2FIX 3] ≤ 3)%nat ∧
  ∃ self lp m,
    (self ← rb_linked_list_allocate sample_klass;
     appends 3 self [INT2FIX 1; INT2FIX 2; INT2FIX 3];;
     rs ← shifts RUBY_Qnil self (3 + 2);
     mret (self, rs)) empty_mem
    = Ok (self, [INT2FIX 1; INT2FIX 2; INT2FIX 3; RUBY_Qnil; RUBY_Qnil]) m ∧
    is_list m self sample_klass lp [].
Proof.
  split; [simpl; lia|].
  apply (append_then_shift_is_fifo RUBY_Qnil sample_klass
           [INT2FIX 1; INT2FIX 2; INT2FIX 3] 2 3 empty_mem).
  simpl; lia.
Defined.

Lemma linked_list_mark_reports_nonzero_values_run :
  is_list mixed_mem 1 sample_klass 1 [(2, INT2FIX 1); (3, RUBY_Qfalse); (4, RUBY_Qnil)] ∧
  (3 < 4)%nat ∧
  linked_list_mark 4 1 mixed_mem = Ok tt (set_gc_marks [INT2FIX 1; RUBY_Qnil] mixed_mem).
Proof.
  split; [exact is_list_mixed_mem|]. split; [lia|].
  refine (proj1 _).
  apply (linked_list_mark_reports_nonzero_values 4 mixed_mem 1 sample_klass 1
           [(2, INT2FIX 1); (3, RUBY_Qfalse); (4, RUBY_Qnil)] is_list_mixed_mem).
  simpl; lia.
Defined.

Lemma linked_list_memsize_is_constant_run :
  is_list new_list_mem 1 sample_klass 1 [] ∧
  (0 + length [INT2FIX 1; INT2FIX 2; INT2FIX 3] ≤ 3)%nat ∧
  appends 3 1 [INT2FIX 1; INT2FIX 2; INT2FIX 3] new_list_mem = Ok tt sample_mem ∧
  linked_list_memsize 8 1 new_list_mem = Ok 8 new_list_mem ∧
  linked_list_memsize 8 1 sample_mem = Ok 8 sample_mem.
Proof.
  split; [exact is_list_new_list_mem|]. split; [simpl; lia|].
  destruct (linked_list_memsize_is_constant 8 3 new_list_mem 1 sample_klass 1 []
              [INT2FIX 1; INT2FIX 2; INT2FIX 3] is_list_new_list_mem) as (H & _).
  - simpl; lia.
  - split; [vm_compute; reflexivity|]. split; apply H.
Defined.

Lemma shift_on_empty_returns_Qnil_run :
  is_list new_list_mem 1 sample_klass 1 [] ∧
  rb_linked_list_shift RUBY_Qnil 1 new_list_mem = Ok RUBY_Qnil new_list_mem ∧
  is_list new_list_mem 1 sample_klass 1 [].
Proof.
  split; [exact is_list_new_list_mem|].
  apply (shift_on_empty_returns_Qnil RUBY_Qnil new_list_mem 1 sample_klass 1
           is_list_new_list_mem).
Defined.

Lemma inspect_renders_values_run :
  is_list sample_mem 1 sample_klass 1 [(2, INT2FIX 1); (3, INT2FIX 2); (4, INT2FIX 3)] ∧
  (3 < 4)%nat ∧ 3 ≤ LONG_MAX ∧
  renders_at (ruby_inspect ClassName_name 4 1) sample_mem fixnum_inspect
    [INT2FIX 1; INT2FIX 2; INT2FIX 3] ∧
  rb_linked_list_inspect ClassName_name (ruby_inspect ClassName_name 4 1) 4 1 sample_mem
    = Ok "#<ClassName {1, 2, 3}>" sample_mem ∧
  (∃ obj m1,
     (obj ← rb_linked_list_allocate sample_klass;
      s ← rb_linked_list_inspect ClassName_name (ruby_inspect ClassName_name 4 1) 1 obj;
      mret (obj, s)) empty_mem
     = Ok (obj, "#<ClassName {}>") m1) ∧
  (∃ obj m1,
     (obj ← rb_linked_list_allocate sample_klass;
      rb_linked_list_append 3 obj (INT2FIX 1);;
      rb_linked_list_append 3 obj (INT2FIX 2);;
      rb_linked_list_append 3 obj (INT2FIX 3);;
      mret obj) empty_mem
     = Ok obj m1 ∧
     rb_linked_list_inspect ClassName_name (ruby_inspect ClassName_name 4 1) 4 obj m1
     = Ok "#<ClassName {1, 2, 3}>" m1).
Proof.
  assert (renders_at (ruby_inspect ClassName_name 4 1) sample_mem fixnum_inspect
            [INT2FIX 1; INT2FIX 2; INT2FIX 3]) as Hr.
  { intros v Hv.
    repeat (apply elem_of_cons in Hv as [->|Hv]; [vm_compute; reflexivity|]).
    by apply elem_of_nil in Hv. }
  split; [exact is_list_sample_mem|]. split; [lia|].
  split; [unfold LONG_MAX; lia|]. split; [exact Hr|].
  destruct (inspect_renders_values ClassName_name (ruby_inspect ClassName_name 4 1)
              fixnum_inspect 4 sample_mem 1
              sample_klass 1 [(2, INT2FIX 1); (3, INT2FIX 2); (4, INT2FIX 3)]
              is_list_sample_mem) as (H1 & H2 & H3).
  - simpl; lia.
  - unfold LONG_MAX; simpl; lia.
  - exact Hr.
  - split; [exact H1|]. split; [exact (H2 empty_mem)|].
    destruct (H3 empty_mem (INT2FIX 1) (INT2FIX 2) (INT2FIX 3)) as (obj & m1 & E & H).
    exists obj, m1. split; [exact E|]. apply H.
    vm_compute in E. injection E as <- <-. exact Hr.
Defined.

(** C6, as the claim states it: for every list [inspect] renders the stored
    values and does not mutate the list.  The list that holds itself is
    built by the code, and its rendering is a call of [inspect] on the same
    list: no bound on loops and nesting lets it return.  On the list
    [elem, 2], where the [inspect] method of [elem] shifts the list, the loop
    reads [next] from the node that the method has freed. *)
Lemma inspect_does_not_render_every_list :
  (rb_linked_list_allocate sample_klass ≫= λ l, rb_linked_list_append 1 l l) empty_mem
    = Ok 1 self_mem ∧
  is_list self_mem 1 sample_klass 1 [(2, 1)] ∧
  ¬ (∃ fuel depth fuel' s m,
       rb_linked_list_inspect ClassName_name (ruby_inspect ClassName_name fuel depth)
         fuel' 1 self_mem = Ok s m) ∧
  (rb_linked_list_allocate sample_klass ≫= λ l,
   rb_linked_list_append 2 l sample_elem ≫= λ _,
   rb_linked_list_append 2 l (INT2FIX 2)) empty_mem
    = Ok 1 elem_mem ∧
  is_list elem_mem 1 sample_klass 1 [(2, sample_elem); (3, INT2FIX 2)] ∧
  rb_linked_list_inspect ClassName_name (shifting_inspect RUBY_Qnil 1 sample_elem)
    3 1 elem_mem = Fault.
Proof.
  split; [vm_compute; reflexivity|]. split; [solve_is_list|]. split.
  { intros (fuel & depth & fuel' & s & m & E).
    rewrite ruby_inspect_self_never_returns in E. discriminate. }
  split; [vm_compute; reflexivity|]. split; [solve_is_list|].
  vm_compute. reflexivity.
Qed.

Lemma append_and_prepend_return_self_run :
  is_list sample_mem 1 sample_klass 1 [(2, INT2FIX 1); (3, INT2FIX 2); (4, INT2FIX 3)] ∧
  (3 < 4)%nat ∧
  (∃ m1, rb_linked_list_append 4 1 (INT2FIX 4) sample_mem = Ok 1 m1) ∧
  (∃ m1, rb_linked_list_prepend 1 (INT2FIX 4) sample_mem = Ok 1 m1) ∧
  (∃ m2 n1 n2,
     (rb_linked_list_append 4 1 (INT2FIX 4) ≫= λ r, rb_linked_list_append 4 r (INT2FIX 5))
       sample_mem = Ok 1 m2 ∧
     is_list m2 1 sample_klass 1
       ([(2, INT2FIX 1); (3, INT2FIX 2); (4, INT2FIX 3)] ++ [(n1, INT2FIX 4); (n2, INT2FIX 5)])).
Proof.
  split; [exact is_list_sample_mem|]. split; [lia|].
  destruct (append_and_prepend_return_self 4 sample_mem 1 sample_klass 1
              [(2, INT2FIX 1); (3, INT2FIX 2); (4, INT2FIX 3)] (INT2FIX 4) (INT2FIX 5)
              is_list_sample_mem) as (H1 & H2 & _ & _ & H5 & _).
  - simpl; lia.
  - split; [exact H1|]. split; [exact H2|]. exact H5.
Defined.

Lemma chain_is_acyclic_and_counts_stored_run :
  (length [OpAppend (INT2FIX 1); OpPrepend (INT2FIX 2); OpShift; OpShift; OpShift;
           OpAppend (INT2FIX 3); OpAppend (INT2FIX 4)] ≤ 7)%nat ∧
  ∃ self lp hd ns m,
    (self ← rb_linked_list_allocate sample_klass;
     run_ops RUBY_Qnil 7 self
       [OpAppend (INT2FIX 1); OpPrepend (INT2FIX 2); OpShift; OpShift; OpShift;
        OpAppend (INT2FIX 3); OpAppend (INT2FIX 4)];;
     mret self) empty_mem
      = Ok self m ∧
    heap m !! lp = Some (ListBlock (mkList (Some hd))) ∧
    chain (heap m) hd ns ∧
    NoDup ns.*1 ∧
    ns.*2 = [INT2FIX 3; INT2FIX 4] ∧
    length ns = 2%nat.
Proof.
  split; [simpl; lia|].
  destruct (chain_is_acyclic_and_counts_stored RUBY_Qnil sample_klass
              [OpAppend (INT2FIX 1); OpPrepend (INT2FIX 2); OpShift; OpShift; OpShift;
               OpAppend (INT2FIX 3); OpAppend (INT2FIX 4)] 7 empty_mem)
    as (self & lp & hd & ns & m & E & _ & Hlp & Hch & Hnd & _ & Hv & Hn & _).
  - simpl; lia.
  - exists self, lp, hd, ns, m. repeat split; assumption.
Defined.

Lemma prepend_then_shift_roundtrip_run :
  is_list sample_mem 1 sample_klass 1 [(2, INT2FIX 1); (3, INT2FIX 2); (4, INT2FIX 3)] ∧
  (rb_linked_list_prepend 1 (INT2FIX 9) ≫= λ _, rb_linked_list_shift RUBY_Qnil 1) sample_mem
    = Ok (INT2FIX 9) sample_mem.
Proof.
  split; [exact is_list_sample_mem|].
  apply (prepend_then_shift_roundtrip RUBY_Qnil sample_mem 1 sample_klass 1
           [(2, INT2FIX 1); (3, INT2FIX 2); (4, INT2FIX 3)] (INT2FIX 9) is_list_sample_mem).
Defined.

(** C3, as the claim states it: with the sentinel [Qnil] that [shift] returns
    on an empty list, [mark] would report [mark_spec Qnil] of the stored
    values.  On the list [1, false, nil] the code reports the stored [nil]
    and skips the stored [false] instead. *)
Lemma linked_list_mark_reports_stored_nil :
  is_list mixed_mem 1 sample_klass 1 [(2, INT2FIX 1); (3, RUBY_Qfalse); (4, RUBY_Qnil)] ∧
  linked_list_mark 4 1 mixed_mem = Ok tt (set_gc_marks [INT2FIX 1; RUBY_Qnil] mixed_mem) ∧
  mark_spec RUBY_Qnil [INT2FIX 1; RUBY_Qfalse; RUBY_Qnil] = [INT2FIX 1; RUBY_Qfalse] ∧
  linked_list_mark 4 1 mixed_mem ≠
    Ok tt (set_gc_marks
             (gc_marks mixed_mem ++ mark_spec RUBY_Qnil [INT2FIX 1; RUBY_Qfalse; RUBY_Qnil])
             mixed_mem).
Proof.
  split; [exact is_list_mixed_mem|].
  split; [vm_compute; reflexivity|]. split; [vm_compute; reflexivity|].
  vm_compute. discriminate.
Qed.

(** ** Runs of the further properties *)

Lemma two_lists_mem_built :
  (a ← rb_linked_list_allocate sample_klass;
   rb_linked_list_append 2 a (INT2FIX 1);;
   b ← rb_linked_list_allocate sample_klass;
   rb_linked_list_append 2 b (INT2FIX 2);;
   rb_linked_list_append 2 a (INT2FIX 3);;
   mret (a, b)) empty_mem
  = Ok (1, 2) two_lists_mem.
Proof. vm_compute. reflexivity. Qed.

Lemma is_list_two_lists_mem_a :
  is_list two_lists_mem 1 sample_klass 1 [(2, INT2FIX 1); (5, INT2FIX 3)].
Proof. solve_is_list. Defined.

Lemma is_list_two_lists_mem_b :
  is_list two_lists_mem 2 sample_klass 3 [(4, INT2FIX 2)].
Proof. solve_is_list. Defined.

Lemma lists_ok_two_lists_mem : lists_ok two_lists_mem two_lists.
Proof.
  apply lists_ok_two.
  - discriminate.
  - exact is_list_two_lists_mem_a.
  - exact is_list_two_lists_mem_b.
  - unfold blocks. cbn.
    repeat apply Forall_cons_2; try apply Forall_nil_2;
      intros H; repeat (apply elem_of_cons in H as [H|H]; [discriminate|]);
      by apply elem_of_nil in H.
Defined.

Lemma mutators_touch_only_own_blocks_run :
  is_list sample_mem 1 sample_klass 1 [(2, INT2FIX 1); (3, INT2FIX 2); (4, INT2FIX 3)] ∧
  (3 ≤ 3)%nat ∧
  (∃ m' ns',
     rb_linked_list_append 3 1 (INT2FIX 4) sample_mem = Ok 1 m' ∧
     is_list m' 1 sample_klass 1 ns' ∧
     frame (heap m') 1 ns' =
       frame (heap sample_mem) 1 [(2, INT2FIX 1); (3, INT2FIX 2); (4, INT2FIX 3)]) ∧
  (∃ m' ns',
     rb_linked_list_shift RUBY_Qnil 1 sample_mem = Ok (INT2FIX 1) m' ∧
     is_list m' 1 sample_klass 1 ns' ∧
     frame (heap m') 1 ns' =
       frame (heap sample_mem) 1 [(2, INT2FIX 1); (3, INT2FIX 2); (4, INT2FIX 3)]).
Proof.
  split; [exact is_list_sample_mem|]. split; [lia|].
  destruct (mutators_touch_only_own_blocks RUBY_Qnil 3 sample_mem 1 sample_klass 1
              [(2, INT2FIX 1); (3, INT2FIX 2); (4, INT2FIX 3)] (INT2FIX 4)
              is_list_sample_mem)
    as ((m1 & ns1 & E1 & Hl1 & _ & Hf1 & _) & _ & (m3 & ns3 & E3 & Hl3 & _ & Hf3 & _)).
  - simpl; lia.
  - split; [by exists m1, ns1|]. by exists m3, ns3.
Defined.

Lemma lists_stay_independent_run :
  lists_ok two_lists_mem two_lists ∧
  two_lists !! 1 = Some (sample_klass, 1, [(2, INT2FIX 1); (5, INT2FIX 3)]) ∧
  (2 ≤ 2)%nat ∧
  (∃ m' a,
     rb_linked_list_append 2 1 (INT2FIX 4) two_lists_mem = Ok 1 m' ∧
     lists_ok m'
       (<[1 := (sample_klass, 1, [(2, INT2FIX 1); (5, INT2FIX 3)] ++ [(a, INT2FIX 4)])]>
          two_lists)) ∧
  (∃ m',
     rb_linked_list_shift RUBY_Qnil 1 two_lists_mem = Ok (INT2FIX 1) m' ∧
     lists_ok m' (<[1 := (sample_klass, 1, [(5, INT2FIX 3)])]> two_lists)).
Proof.
  split; [exact lists_ok_two_lists_mem|]. split; [reflexivity|]. split; [lia|].
  destruct (lists_stay_independent RUBY_Qnil 2 two_lists_mem two_lists 1 sample_klass 1
              [(2, INT2FIX 1); (5, INT2FIX 3)] (INT2FIX 4) lists_ok_two_lists_mem)
    as (H1 & _ & H3).
  - reflexivity.
  - simpl; lia.
  - split; [exact H1|exact H3].
Defined.

Lemma allocate_adds_a_separate_list_run :
  lists_ok two_lists_mem two_lists ∧
  ∃ self lp m',
    rb_linked_list_allocate sample_klass two_lists_mem = Ok self m' ∧
    objs two_lists_mem !! self = None ∧ two_lists !! self = None ∧
    heap two_lists_mem !! lp = None ∧ lp ≠ NULL ∧
    lists_ok m' (<[self := (sample_klass, lp, [])]> two_lists) ∧
    gc_marks m' = gc_marks two_lists_mem.
Proof.
  split; [exact lists_ok_two_lists_mem|].
  exact (allocate_adds_a_separate_list sample_klass two_lists_mem two_lists
           lists_ok_two_lists_mem).
Defined.

Lemma mixed_calls_then_drain_run :
  (length mixed_ops ≤ 7)%nat ∧
  ∃ self lp m,
    (self ← rb_linked_list_allocate sample_klass;
     run_ops RUBY_Qnil 7 self mixed_ops;;
     rs ← shifts RUBY_Qnil self (2 + 1);
     mret (self, rs)) empty_mem
    = Ok (self, [INT2FIX 3; INT2FIX 4; RUBY_Qnil]) m ∧
    is_list m self sample_klass lp [].
Proof.
  split; [simpl; lia|].
  apply (mixed_calls_then_drain RUBY_Qnil sample_klass mixed_ops 1 7 empty_mem).
  simpl; lia.
Defined.


Lemma prepends_then_shifts_restore_memory_run :
  is_list sample_mem 1 sample_klass 1 [(2, INT2FIX 1); (3, INT2FIX 2); (4, INT2FIX 3)] ∧
  (prepends 1 [INT2FIX 7; INT2FIX 8; INT2FIX 9] ≫= λ _, shifts RUBY_Qnil 1 3) sample_mem
    = Ok [INT2FIX 9; INT2FIX 8; INT2FIX 7] sample_mem.
Proof.
  split; [exact is_list_sample_mem|].
  apply (prepends_then_shifts_restore_memory RUBY_Qnil sample_mem 1 sample_klass 1
           [(2, INT2FIX 1); (3, INT2FIX 2); (4, INT2FIX 3)]
           [INT2FIX 7; INT2FIX 8; INT2FIX 9] is_list_sample_mem).
Defined.

Lemma drained_list_restores_memory_run :
  is_list new_list_mem 1 sample_klass 1 [] ∧
  (length drain_ops ≤ 7)%nat ∧ stored drain_ops = [] ∧
  run_ops RUBY_Qnil 7 1 drain_ops new_list_mem = Ok tt new_list_mem.
Proof.
  split; [exact is_list_new_list_mem|]. split; [simpl; lia|].
  split; [reflexivity|].
  apply (drained_list_restores_memory RUBY_Qnil 7 new_list_mem 1 sample_klass 1
           drain_ops is_list_new_list_mem).
  - simpl; lia.
  - reflexivity.
Defined.

Lemma live_blocks_are_accounted_run :
  (length mixed_ops ≤ 7)%nat ∧
  ∃ self lp ns m,
    (self ← rb_linked_list_allocate sample_klass;
     run_ops RUBY_Qnil 7 self mixed_ops;; mret self) two_lists_mem
      = Ok self m ∧
    is_list m self sample_klass lp ns ∧ ns.*2 = [INT2FIX 3; INT2FIX 4] ∧
    frame (heap m) lp ns = heap two_lists_mem ∧
    size (heap m) = 8%nat.
Proof.
  split; [simpl; lia|].
  destruct (live_blocks_are_accounted RUBY_Qnil sample_klass mixed_ops 7 two_lists_mem)
    as (self & lp & ns & m & E & Hl & Hv & Hf & Hs & _).
  - simpl; lia.
  - exists self, lp, ns, m.
    split; [exact E|]. split; [exact Hl|]. split; [exact Hv|].
    split; [exact Hf|exact Hs].
Defined.

Lemma free_releases_only_the_struct_run :
  (length mixed_ops ≤ 7)%nat ∧
  ∃ self lp ns m m',
    (self ← rb_linked_list_allocate sample_klass;
     run_ops RUBY_Qnil 7 self mixed_ops;; mret self) empty_mem
      = Ok self m ∧
    is_list m self sample_klass lp ns ∧
    linked_list_free lp m = Ok tt m' ∧
    heap m' = delete lp (heap m) ∧
    size (heap m') = 2%nat.
Proof.
  split; [simpl; lia|].
  destruct (free_releases_only_the_struct RUBY_Qnil sample_klass mixed_ops 7 empty_mem)
    as (self & lp & ns & m & m' & E & Hl & Hfree & Hh & _ & Hs & _).
  - simpl; lia.
  - exists self, lp, ns, m, m'.
    split; [exact E|]. split; [exact Hl|]. split; [exact Hfree|].
    split; [exact Hh|exact Hs].
Defined.

Lemma append_on_empty_is_prepend_run :
  is_list new_list_mem 1 sample_klass 1 [] ∧
  rb_linked_list_append 0 1 (INT2FIX 1) new_list_mem
    = rb_linked_list_prepend 1 (INT2FIX 1) new_list_mem.
Proof.
  split; [exact is_list_new_list_mem|].
  apply (append_on_empty_is_prepend 0 new_list_mem 1 sample_klass 1 (INT2FIX 1)
           is_list_new_list_mem).
Defined.

Lemma shift_frees_the_head_node_run :
  is_list sample_mem 1 sample_klass 1 ((2, INT2FIX 1) :: [(3, INT2FIX 2); (4, INT2FIX 3)]) ∧
  ∃ m',
    rb_linked_list_shift RUBY_Qnil 1 sample_mem = Ok (INT2FIX 1) m' ∧
    is_list m' 1 sample_klass 1 [(3, INT2FIX 2); (4, INT2FIX 3)] ∧
    heap m' !! 2 = None ∧
    size (heap m') = 3%nat.
Proof.
  split; [exact is_list_sample_mem|].
  destruct (shift_frees_the_head_node RUBY_Qnil sample_mem 1 sample_klass 1 2 (INT2FIX 1)
              [(3, INT2FIX 2); (4, INT2FIX 3)] is_list_sample_mem)
    as (m' & E & Hl & _ & Hfree & _ & _ & Hs).
  exists m'. split; [exact E|]. split; [exact Hl|]. split; [exact Hfree|].
  rewrite Hs. vm_compute. reflexivity.
Defined.
